(** * Simple Notes App: a shallow embedding of [notes_frontend/src/main.js]

    The development follows the source file top to bottom:

    - [JsString]: the string primitives of the platform that the source calls
      ([trim], [toLowerCase], [includes], [slice], [Number.prototype.toString]
      with radix 36);
    - [JSON]: JSON values, [JSON.stringify] and [JSON.parse];
    - [Array_sort]: [Array.prototype.sort];
    - the [Note] record, the persistence adapter, the note factory, the
      filter/sort engine and the action handlers, as explicit state passing
      over the module-level [state] object and [localStorage];
    - the facts about the platform model, and then the properties of the
      program, one section per component.

    Modelling conventions.

    - A JavaScript string is a sequence of code units; the model covers the
      code units U+0000..U+00FF, one [ascii] per code unit.
    - A JavaScript number is modelled by [Z]: every number the program itself
      produces is a reading of [Date.now()], an integer.
    - The state is typed: [state.notes] is a list of [Note] records.  The
      source takes the array read from storage as it is; an array with an
      element that is not a note has no typed state ([init] is [None]).
    - [localStorage] is a finite map from keys to texts, without quota.
    - What the environment answers during a call ([Date.now()],
      [Math.random()], [confirm]) is an explicit argument of the handler that
      asks for it.
    - Rendering ([renderLayout], the DOM, [handleCopy] and its toast) is not
      part of the model: it reads the state and never writes it. *)

From Stdlib Require Import ZArith Ascii String List Lia.
From stdpp Require Import base option list strings gmap sorting.

Local Open Scope string_scope.
Local Open Scope Z_scope.
Local Open Scope list_scope.

(* ===================================================================== *)
(** * Platform strings *)
(* ===================================================================== *)

Module JsString.

(** The code unit of a character. *)
Definition code (c : ascii) : N := N_of_ascii c.

(** [!s] is true exactly for the empty string. *)
Definition truthy (s : string) : bool :=
  match s with
  | EmptyString => false
  | String _ _ => true
  end.

(** ECMAScript WhiteSpace and LineTerminator code units below U+0100:
    TAB, LF, VT, FF, CR, SPACE and NO-BREAK SPACE. *)
Definition isWhiteSpace (c : ascii) : bool :=
  let n := code c in
  ((9 <=? n) && (n <=? 13) || (n =? 32) || (n =? 160))%N.

(** [String.prototype.trim], as [trimStart] followed by [trimEnd]. *)
Fixpoint trimStart (s : string) : string :=
  match s with
  | EmptyString => EmptyString
  | String c s' => if isWhiteSpace c then trimStart s' else s
  end.

Fixpoint trimEnd (s : string) : string :=
  match s with
  | EmptyString => EmptyString
  | String c s' =>
      let t := trimEnd s' in
      if isWhiteSpace c && negb (truthy t) then EmptyString else String c t
  end.

Definition trim (s : string) : string := trimEnd (trimStart s).

(** [String.prototype.toLowerCase] on U+0000..U+00FF: the letters A-Z and
    the Latin-1 capitals U+00C0..U+00DE (U+00D7, the multiplication sign,
    excepted) move up by 32; every other code unit is kept. *)
Definition lowerChar (c : ascii) : ascii :=
  let n := code c in
  if ((65 <=? n) && (n <=? 90)
      || (192 <=? n) && (n <=? 222) && negb (n =? 215))%N
  then ascii_of_N (n + 32) else c.

Fixpoint toLowerCase (s : string) : string :=
  match s with
  | EmptyString => EmptyString
  | String c s' => String (lowerChar c) (toLowerCase s')
  end.

(** [s.startsWith(q)] *)
Fixpoint startsWith (s q : string) : bool :=
  match q, s with
  | EmptyString, _ => true
  | String _ _, EmptyString => false
  | String a q', String b s' => Ascii.eqb a b && startsWith s' q'
  end.

(** [s.includes(q)]: [q] occurs in [s] at some position. *)
Fixpoint includes (s q : string) : bool :=
  startsWith s q ||
  match s with
  | EmptyString => false
  | String _ s' => includes s' q
  end.

(** The declarative reading of [includes]. *)
Definition substring_of (q s : string) : Prop :=
  ∃ pre post : string, s = pre +:+ q +:+ post.

(** [s.slice(i, j)] for [0 <= i <= j]: the code units at positions
    [i .. j-1] that exist. *)
Fixpoint drop_chars (n : nat) (s : string) : string :=
  match n, s with
  | O, _ => s
  | S _, EmptyString => EmptyString
  | S n', String _ s' => drop_chars n' s'
  end.

Fixpoint take_chars (n : nat) (s : string) : string :=
  match n, s with
  | O, _ => EmptyString
  | S _, EmptyString => EmptyString
  | S n', String c s' => String c (take_chars n' s')
  end.

Definition slice (s : string) (i j : nat) : string :=
  take_chars (j - i) (drop_chars i s).

(** [Number.prototype.toString(36)] on integers: digits [0-9a-z], most
    significant first, with a minus sign for negative numbers. *)
Definition digit36 (d : Z) : ascii :=
  if d <? 10 then ascii_of_N (Z.to_N (48 + d)) else ascii_of_N (Z.to_N (87 + d)).

Fixpoint toString36_pos (fuel : nat) (n : Z) (acc : string) : string :=
  match fuel with
  | O => acc
  | S fuel' =>
      let acc' := String (digit36 (n mod 36)) acc in
      if n <? 36 then acc' else toString36_pos fuel' (n / 36) acc'
  end.

Definition toString36 (n : Z) : string :=
  let m := Z.abs n in
  let digits := toString36_pos (S (Z.to_nat (Z.log2 m))) m EmptyString in
  if n <? 0 then String "-" digits else digits.

End JsString.

(* ===================================================================== *)
(** * JSON *)
(* ===================================================================== *)

(** [JSON.stringify] and [JSON.parse] on the values the program stores.
    A number written as an integer is that integer; a number written with a
    fraction or an exponent is kept as its text ([Decimal]), since the program
    never computes with one.  An object is the list of its own properties in
    insertion order (the program uses no key that is an array index, which
    JavaScript would enumerate first). *)
Module JSON.
Import JsString.

#[local] Unset Elimination Schemes.
Inductive value : Type :=
| Null
| Bool (b : bool)
| Number (n : Z)
| Decimal (literal : string)
| Str (s : string)
| Array (elements : list value)
| Object (members : list (string * value)).
#[local] Set Elimination Schemes.

Definition dquote : ascii := "034"%char.
Definition backslash : ascii := "092"%char.

Notation "'let?' p := e 'in' k" :=
  (match e with Some p => k | None => None end)
  (at level 10, p pattern, e at level 200, k at level 200, only parsing).

(** ** Objects as property lists *)

(** Defining a property: an existing key keeps its place and takes the new
    value, a new key goes last. *)
Fixpoint objSet (k : string) (v : value) (m : list (string * value))
  : list (string * value) :=
  match m with
  | [] => [(k, v)]
  | (k', v') :: m' =>
      if String.eqb k k' then (k', v) :: m' else (k', v') :: objSet k v m'
  end.

Definition objOfList (kvs : list (string * value)) : list (string * value) :=
  foldl (λ m kv, objSet kv.1 kv.2 m) [] kvs.

(** ** [JSON.stringify]

    [write v k] puts the text of [v] in front of [k]. *)

Definition hexDigit (n : N) : ascii :=
  if (n <? 10)%N then ascii_of_N (48 + n) else ascii_of_N (87 + n).

(** QuoteJSONString, one code unit. *)
Definition quoteChar (c : ascii) (k : string) : string :=
  let n := code c in
  if (n =? 8)%N then String backslash (String "b" k)
  else if (n =? 9)%N then String backslash (String "t" k)
  else if (n =? 10)%N then String backslash (String "n" k)
  else if (n =? 12)%N then String backslash (String "f" k)
  else if (n =? 13)%N then String backslash (String "r" k)
  else if (n =? 34)%N then String backslash (String dquote k)
  else if (n =? 92)%N then String backslash (String backslash k)
  else if (n <? 32)%N then
    String backslash (String "u" (String "0" (String "0"
      (String (hexDigit (n / 16)) (String (hexDigit (n mod 16)) k)))))
  else String c k.

Fixpoint quoteChars (s : string) (k : string) : string :=
  match s with
  | EmptyString => k
  | String c s' => quoteChar c (quoteChars s' k)
  end.

Definition quote (s : string) (k : string) : string :=
  String dquote (quoteChars s (String dquote k)).

(** Number::toString(10) on integers. *)
Definition digit10 (d : Z) : ascii := ascii_of_N (Z.to_N (48 + d)).

Fixpoint writeDigits (fuel : nat) (n : Z) (k : string) : string :=
  match fuel with
  | O => k
  | S fuel' =>
      let k' := String (digit10 (n mod 10)) k in
      if n <? 10 then k' else writeDigits fuel' (n / 10) k'
  end.

Definition writeNumber (n : Z) (k : string) : string :=
  let m := Z.abs n in
  let digits := writeDigits (S (Z.to_nat (Z.log2 m))) m k in
  if n <? 0 then String "-" digits else digits.

(** What follows the first element of a non-empty array or object: each
    further element after a comma, then the closing bracket. *)
Definition writeRest {A} (w : A → string → string) (close : ascii)
    (k : string) : list A → string :=
  fix rest (l : list A) : string :=
    match l with
    | [] => String close k
    | y :: l' => String "," (w y (rest l'))
    end.

Fixpoint write (v : value) (k : string) : string :=
  match v with
  | Null => "null" +:+ k
  | Bool true => "true" +:+ k
  | Bool false => "false" +:+ k
  | Number n => writeNumber n k
  | Decimal literal => literal +:+ k
  | Str s => quote s k
  | Array [] => "[]" +:+ k
  | Array (x :: l) => String "[" (write x (writeRest write "]" k l))
  | Object [] => "{}" +:+ k
  | Object ((key, x) :: m) =>
      String "{" (quote key (String ":" (write x
        (writeRest (λ kv k', quote kv.1 (String ":" (write kv.2 k')))
           "}" k m))))
  end.

(** The fuel [parseValue] needs to read a value back. *)
Fixpoint size (v : value) : nat :=
  match v with
  | Array l => S (foldr (λ x n, S (size x + n)) O l)
  | Object m => S (foldr (λ kv n, S (size kv.2 + n)) O m)
  | _ => 1
  end.

Definition stringify (v : value) : string := write v EmptyString.

(** ** [JSON.parse] *)

(** JSON whitespace: TAB, LF, CR and SPACE. *)
Definition isJsonWs (c : ascii) : bool :=
  let n := code c in ((n =? 9) || (n =? 10) || (n =? 13) || (n =? 32))%N.

Fixpoint skipWs (s : string) : string :=
  match s with
  | EmptyString => EmptyString
  | String c s' => if isJsonWs c then skipWs s' else s
  end.

(** [expect lit s]: what follows the literal [lit] at the head of [s]. *)
Fixpoint expect (lit s : string) : option string :=
  match lit, s with
  | EmptyString, _ => Some s
  | String _ _, EmptyString => None
  | String a lit', String b s' => if Ascii.eqb a b then expect lit' s' else None
  end.

Definition hexVal (c : ascii) : option N :=
  let n := code c in
  if ((48 <=? n) && (n <=? 57))%N then Some (n - 48)%N
  else if ((97 <=? n) && (n <=? 102))%N then Some (n - 87)%N
  else if ((65 <=? n) && (n <=? 70))%N then Some (n - 55)%N
  else None.

Definition hex4 (a b c d : ascii) : option N :=
  let? x := hexVal a in
  let? y := hexVal b in
  let? z := hexVal c in
  let? w := hexVal d in
  Some (((x * 16 + y) * 16 + z) * 16 + w)%N.

(** The character an escape letter stands for. *)
Definition unescape (e : ascii) : option ascii :=
  if Ascii.eqb e dquote then Some dquote
  else if Ascii.eqb e backslash then Some backslash
  else if Ascii.eqb e "/" then Some "/"%char
  else if Ascii.eqb e "b" then Some "008"%char
  else if Ascii.eqb e "f" then Some "012"%char
  else if Ascii.eqb e "n" then Some "010"%char
  else if Ascii.eqb e "r" then Some "013"%char
  else if Ascii.eqb e "t" then Some "009"%char
  else None.

Definition consChar (c : ascii) (r : option (string * string))
  : option (string * string) :=
  let? (s, rest) := r in Some (String c s, rest).

(** The characters of a string literal after its opening quote, up to and
    including the closing quote.  A [\u] escape above U+00FF is outside the
    model. *)
Fixpoint parseChars (s : string) : option (string * string) :=
  match s with
  | EmptyString => None
  | String c r =>
      if Ascii.eqb c dquote then Some (EmptyString, r)
      else if Ascii.eqb c backslash then
        match r with
        | EmptyString => None
        | String e r1 =>
            if Ascii.eqb e "u" then
              match r1 with
              | String h1 (String h2 (String h3 (String h4 r2))) =>
                  let? n := hex4 h1 h2 h3 h4 in
                  if (n <? 256)%N then consChar (ascii_of_N n) (parseChars r2)
                  else None
              | _ => None
              end
            else
              let? c' := unescape e in consChar c' (parseChars r1)
        end
      else if (code c <? 32)%N then None
      else consChar c (parseChars r)
  end.

Definition isDigit (c : ascii) : bool :=
  let n := code c in ((48 <=? n) && (n <=? 57))%N.

Definition digitVal (c : ascii) : Z := Z.of_N (code c) - 48.

(** The longest run of digits at the head of [s], read onto [acc]. *)
Fixpoint parseDigits (acc : Z) (s : string) : Z * string :=
  match s with
  | EmptyString => (acc, s)
  | String c s' =>
      if isDigit c then parseDigits (acc * 10 + digitVal c) s' else (acc, s)
  end.

(** [0], or a non-zero digit followed by digits. *)
Definition parseInt (s : string) : option (Z * string) :=
  match s with
  | EmptyString => None
  | String c r =>
      if Ascii.eqb c "0" then Some (0, r)
      else if isDigit c then Some (parseDigits (digitVal c) r)
      else None
  end.

(** What follows a run of one or more digits. *)
Fixpoint skipDigits (s : string) : string :=
  match s with
  | EmptyString => EmptyString
  | String c s' => if isDigit c then skipDigits s' else s
  end.

Definition digitRun (s : string) : option string :=
  match s with
  | EmptyString => None
  | String c s' => if isDigit c then Some (skipDigits s') else None
  end.

(** An optional fraction: a dot and digits. *)
Definition fractionPart (r : string) : option string :=
  match r with
  | EmptyString => Some r
  | String c r' => if Ascii.eqb c "." then digitRun r' else Some r
  end.

(** An optional exponent: [e] or [E], an optional sign, and digits. *)
Definition exponentPart (r : string) : option string :=
  match r with
  | EmptyString => Some r
  | String c r' =>
      if Ascii.eqb c "e" || Ascii.eqb c "E" then
        match r' with
        | EmptyString => None
        | String sign r'' =>
            if Ascii.eqb sign "+" || Ascii.eqb sign "-" then digitRun r''
            else digitRun r'
        end
      else Some r
  end.

Definition parseNumber (s : string) : option (value * string) :=
  match s with
  | EmptyString => None
  | String c r =>
      let? (n, r1) :=
        if Ascii.eqb c "-" then
          let? (m, r') := parseInt r in Some (- m, r')
        else parseInt s in
      let? r2 := fractionPart r1 in
      let? r3 := exponentPart r2 in
      if (String.length r3 =? String.length r1)%nat then Some (Number n, r1)
      else
        Some (Decimal (take_chars (String.length s - String.length r3) s), r3)
  end.

(** The key of a member and the colon after it. *)
Definition parseKey (s : string) : option (string * string) :=
  match skipWs s with
  | EmptyString => None
  | String c r =>
      if Ascii.eqb c dquote then
        let? (key, r1) := parseChars r in
        match skipWs r1 with
        | EmptyString => None
        | String c' r2 => if Ascii.eqb c' ":" then Some (key, r2) else None
        end
      else None
  end.

Fixpoint parseValue (fuel : nat) (s : string) : option (value * string) :=
  match fuel with
  | O => None
  | S fuel' =>
      match skipWs s with
      | EmptyString => None
      | String c r =>
          if Ascii.eqb c "{" then
            match skipWs r with
            | EmptyString => None
            | String c' r' =>
                if Ascii.eqb c' "}" then Some (Object [], r')
                else
                  let? (m, r'') := parseMembers fuel' r in
                  Some (Object (objOfList m), r'')
            end
          else if Ascii.eqb c "[" then
            match skipWs r with
            | EmptyString => None
            | String c' r' =>
                if Ascii.eqb c' "]" then Some (Array [], r')
                else
                  let? (l, r'') := parseElements fuel' r in
                  Some (Array l, r'')
            end
          else if Ascii.eqb c dquote then
            let? (str, r') := parseChars r in Some (Str str, r')
          else if Ascii.eqb c "t" then
            let? r' := expect "rue" r in Some (Bool true, r')
          else if Ascii.eqb c "f" then
            let? r' := expect "alse" r in Some (Bool false, r')
          else if Ascii.eqb c "n" then
            let? r' := expect "ull" r in Some (Null, r')
          else parseNumber (String c r)
      end
  end

(** One or more values separated by commas, then the closing bracket. *)
with parseElements (fuel : nat) (s : string) : option (list value * string) :=
  match fuel with
  | O => None
  | S fuel' =>
      let? (v, r) := parseValue fuel' s in
      match skipWs r with
      | EmptyString => None
      | String c r' =>
          if Ascii.eqb c "," then
            let? (l, r'') := parseElements fuel' r' in Some (v :: l, r'')
          else if Ascii.eqb c "]" then Some ([v], r')
          else None
      end
  end

(** One or more members separated by commas, then the closing brace. *)
with parseMembers (fuel : nat) (s : string)
  : option (list (string * value) * string) :=
  match fuel with
  | O => None
  | S fuel' =>
      let? (key, r0) := parseKey s in
      let? (v, r) := parseValue fuel' r0 in
      match skipWs r with
      | EmptyString => None
      | String c r' =>
          if Ascii.eqb c "," then
            let? (m, r'') := parseMembers fuel' r' in Some ((key, v) :: m, r'')
          else if Ascii.eqb c "}" then Some ([(key, v)], r')
          else None
      end
  end.

(** [JSON.parse text]: [None] stands for the SyntaxError it throws.  Every
    value, element and member consumes a character, so the length of the
    text bounds the depth of the descent. *)
Definition parse (text : string) : option value :=
  let? (v, r) := parseValue (S (String.length text)) text in
  match skipWs r with
  | EmptyString => Some v
  | String _ _ => None
  end.

(** ** Notions used to state that [parse] reads back what [write] wrote *)

(** What may follow a value: the end of the text, a comma or a closing
    bracket.  None of them continues a number. *)
Definition terminator (k : string) : bool :=
  match k with
  | EmptyString => true
  | String c _ => Ascii.eqb c "," || Ascii.eqb c "]" || Ascii.eqb c "}"
  end.

(** The first character of a number, and of any value. *)
Definition numberStart (c : ascii) : bool := isDigit c || Ascii.eqb c "-".

Definition valueStart (c : ascii) : bool :=
  numberStart c || Ascii.eqb c "{" || Ascii.eqb c "[" || Ascii.eqb c dquote
  || Ascii.eqb c "t" || Ascii.eqb c "f" || Ascii.eqb c "n".

(** Values that have no [Decimal] and whose objects define no key twice:
    the values [parse] reads back as they were written. *)
#[local] Unset Elimination Schemes.
Inductive wf : value → Prop :=
| wf_Null : wf Null
| wf_Bool b : wf (Bool b)
| wf_Number n : wf (Number n)
| wf_Str s : wf (Str s)
| wf_Array l : Forall wf l → wf (Array l)
| wf_Object m : NoDup m.*1 → Forall (λ kv, wf kv.2) m → wf (Object m).
#[local] Set Elimination Schemes.

Definition readsBack (v : value) : Prop :=
  ∀ (fuel : nat) (k : string),
    (size v ≤ fuel)%nat → terminator k = true →
    parseValue fuel (write v k) = Some (v, k).

End JSON.

(* ===================================================================== *)
(** * [Array.prototype.sort] *)
(* ===================================================================== *)

(** ECMAScript requires [sort] to be stable: with a consistent comparator the
    result is the one permutation in which [a] precedes [b] whenever
    [cmp a b < 0], and elements that compare equal keep their order.  Stable
    insertion from the right computes that permutation. *)
Section ArraySort.
Context {A : Type} (cmp : A → A → Z).

Fixpoint sort_insert (x : A) (l : list A) : list A :=
  match l with
  | [] => [x]
  | y :: l' => if cmp x y <=? 0 then x :: y :: l' else y :: sort_insert x l'
  end.

Definition Array_sort (l : list A) : list A := foldr sort_insert [] l.
End ArraySort.

(** The comparator [(a, b) => key(b) - key(a)]: descending by [key]. *)
Definition descendingBy {A} (key : A → Z) (a b : A) : Z := key b - key a.

(* ===================================================================== *)
(** * Exceptions *)
(* ===================================================================== *)

(** The outcome of running a block of statements: it returns a value or
    throws.  [tryCatch] is [try { body } catch { handler }]. *)
Inductive error : Type := SyntaxError.

Inductive completion (A : Type) : Type :=
| Normal (a : A)
| Throw (e : error).
Arguments Normal {A} a.
Arguments Throw {A} e.

Definition bind {A B} (c : completion A) (k : A → completion B) : completion B :=
  match c with
  | Normal a => k a
  | Throw e => Throw e
  end.

Definition tryCatch {A} (body handler : completion A) : completion A :=
  match body with
  | Normal a => Normal a
  | Throw _ => handler
  end.

(** [JSON.parse(raw)] as a statement: a SyntaxError where [JSON.parse] has no
    value. *)
Definition JSON_parse (raw : string) : completion JSON.value :=
  match JSON.parse raw with
  | Some v => Normal v
  | None => Throw SyntaxError
  end.

(* ===================================================================== *)
(** * Notes and application state *)
(* ===================================================================== *)

Import JsString.

(** [@typedef {Object} Note] *)
Record Note := mkNote {
  id : string;
  title : string;
  content : string;
  createdAt : Z;
  updatedAt : Z;
}.

(** The module-level [state] object.  [selectedId] is [None] for [null]. *)
Record State := mkState {
  notes : list Note;
  selectedId : option string;
  query : string;
  isEditingTitle : bool;
}.

(** The program's mutable world: [state] and the browser's [localStorage]
    (without a quota: [setItem] always succeeds). *)
Record World := mkWorld {
  state : State;
  localStorage : gmap string string;
}.

(** A note as the object literal of [createNote] lays it out, and back.  Only
    objects of exactly this shape are notes of the typed state. *)
Definition noteKeys : list string :=
  ["id"; "title"; "content"; "createdAt"; "updatedAt"].

Definition noteToJson (n : Note) : JSON.value :=
  JSON.Object
    [("id", JSON.Str (id n)); ("title", JSON.Str (title n));
     ("content", JSON.Str (content n));
     ("createdAt", JSON.Number (createdAt n));
     ("updatedAt", JSON.Number (updatedAt n))].

Definition noteOfJson (v : JSON.value) : option Note :=
  match v with
  | JSON.Object
      [(k1, JSON.Str i); (k2, JSON.Str t); (k3, JSON.Str c);
       (k4, JSON.Number ca); (k5, JSON.Number ua)] =>
      if bool_decide ([k1; k2; k3; k4; k5] = noteKeys)
      then Some (mkNote i t c ca ua) else None
  | _ => None
  end.

Definition notesOfJson (l : list JSON.value) : option (list Note) :=
  mapM noteOfJson l.

(* ===================================================================== *)
(** * Persistence adapter *)
(* ===================================================================== *)

Definition STORAGE_KEY : string := "simple-notes-app__notes".
Definition SELECTED_KEY : string := "simple-notes-app__selectedId".

Definition getItem (ls : gmap string string) (key : string) : option string :=
  ls !! key.

Definition setItem (ls : gmap string string) (key v : string)
  : gmap string string :=
  <[key := v]> ls.

(** [loadNotes()]: the array read from storage, before any typing. *)
Definition loadNotes (ls : gmap string string) : completion (list JSON.value) :=
  tryCatch
    (match getItem ls STORAGE_KEY with
     | None => Normal []
     | Some raw =>
         if negb (truthy raw) then Normal []
         else
           bind (JSON_parse raw) (λ parsed,
             match parsed with
             | JSON.Array l => Normal l
             | _ => Normal []
             end)
     end)
    (Normal []).

(** [saveNotes(notes)] *)
Definition saveNotes (ns : list Note) (ls : gmap string string)
  : gmap string string :=
  setItem ls STORAGE_KEY (JSON.stringify (JSON.Array (noteToJson <$> ns))).

(** Truthiness of a value that is [null] or a string. *)
Definition truthyOpt (x : option string) : bool :=
  match x with
  | Some s => truthy s
  | None => false
  end.

(** [x || y] on values that are [null] or a string. *)
Definition orElse (x y : option string) : option string :=
  if truthyOpt x then x else y.

(** [loadSelectedId()]: [localStorage.getItem(SELECTED_KEY) || null] *)
Definition loadSelectedId (ls : gmap string string) : option string :=
  orElse (getItem ls SELECTED_KEY) None.

(** [saveSelectedId(id)]: [localStorage.setItem(SELECTED_KEY, id || '')] *)
Definition saveSelectedId (sel : option string) (ls : gmap string string)
  : gmap string string :=
  setItem ls SELECTED_KEY (default EmptyString (orElse sel (Some EmptyString))).

(* ===================================================================== *)
(** * Note factory *)
(* ===================================================================== *)

(** [generateId()].  [idTime] is the reading of [Date.now()] and [random36]
    the text of [Math.random().toString(36)]. *)
Definition generateId (idTime : Z) (random36 : string) : string :=
  toString36 idTime +:+ "-" +:+ slice random36 2 8.

(** [createNote(title = 'Untitled note')].  [None] is a missing argument;
    [now] is the reading of [Date.now()] in the body, taken before
    [generateId] is called. *)
Definition createNote (titleArg : option string)
    (now idTime : Z) (random36 : string) : Note :=
  {| id := generateId idTime random36;
     title := default "Untitled note" titleArg;
     content := EmptyString;
     createdAt := now;
     updatedAt := now |}.

(* ===================================================================== *)
(** * Filter/sort engine *)
(* ===================================================================== *)

(** The comparator of [getFilteredNotes]: [(a, b) => b.updatedAt - a.updatedAt]. *)
Definition byUpdatedDesc (a b : Note) : Z := updatedAt b - updatedAt a.

(** The callback of [notes.filter] in [getFilteredNotes]. *)
Definition matchesQuery (q : string) (n : Note) : bool :=
  (truthy (title n) && includes (toLowerCase (title n)) q)
  || (truthy (content n) && includes (toLowerCase (content n)) q).

Definition getFilteredNotes (st : State) : list Note :=
  let q := toLowerCase (trim (query st)) in
  let sorted := Array_sort byUpdatedDesc (notes st) in
  if negb (truthy q) then sorted
  else List.filter (matchesQuery q) sorted.

(** The spec's reading of the filter: with a non-empty folded query [q], a
    note is retained when its folded title or its folded content includes
    [q]; with an empty one every note is. *)
Definition retains (q : string) (n : Note) : bool :=
  negb (truthy q)
  || includes (toLowerCase (title n)) q
  || includes (toLowerCase (content n)) q.

(* ===================================================================== *)
(** * Action handlers *)
(* ===================================================================== *)

(** [n.id === state.selectedId] *)
Definition isSelected (sel : option string) (n : Note) : bool :=
  match sel with
  | Some s => String.eqb (id n) s
  | None => false
  end.

(** [Array.prototype.findIndex]; [None] is the [-1] of JavaScript. *)
Fixpoint findIndex {A} (p : A → bool) (l : list A) : option nat :=
  match l with
  | [] => None
  | x :: l' => if p x then Some O else S <$> findIndex p l'
  end.

(** [state.notes[0].id] when the array is not empty. *)
Definition firstId (ns : list Note) : option string := id <$> head ns.

Definition setNotes (st : State) (ns : list Note) : State :=
  {| notes := ns; selectedId := selectedId st; query := query st;
     isEditingTitle := isEditingTitle st |}.

Definition setSelectedId (st : State) (sel : option string) : State :=
  {| notes := notes st; selectedId := sel; query := query st;
     isEditingTitle := isEditingTitle st |}.

Definition setQuery (st : State) (q : string) : State :=
  {| notes := notes st; selectedId := selectedId st; query := q;
     isEditingTitle := isEditingTitle st |}.

(** [handleAddNote()], with the readings [createNote] and [generateId] take. *)
Definition handleAddNote (now idTime : Z) (random36 : string) (w : World)
  : World :=
  let note := createNote None now idTime random36 in
  let ns := note :: notes (state w) in
  let st := setSelectedId (setNotes (state w) ns) (Some (id note)) in
  {| state := st;
     localStorage :=
       saveSelectedId (selectedId st) (saveNotes (notes st) (localStorage w)) |}.

(** [selectNote(id)]: no check that a note has this id. *)
Definition selectNote (i : string) (w : World) : World :=
  {| state := setSelectedId (state w) (Some i);
     localStorage := saveSelectedId (Some i) (localStorage w) |}.

(** The argument of [updateSelectedNote]: an object with a [title] property,
    a [content] property, both or none. *)
Record Patch := mkPatch {
  patchTitle : option string;
  patchContent : option string;
}.

(** [{ ...n, ...patch, updatedAt: now }] *)
Definition applyPatch (n : Note) (p : Patch) (now : Z) : Note :=
  {| id := id n;
     title := default (title n) (patchTitle p);
     content := default (content n) (patchContent p);
     createdAt := createdAt n;
     updatedAt := now |}.

(** [updateSelectedNote(patch)].  [now] is the reading of [Date.now()].  The
    index that [findIndex] returns is in range, so [state.notes[idx]] is
    always a note. *)
Definition updateSelectedNote (p : Patch) (now : Z) (w : World) : World :=
  match findIndex (isSelected (selectedId (state w))) (notes (state w)) with
  | None => w
  | Some idx =>
      match notes (state w) !! idx with
      | None => w
      | Some old =>
          let updated := applyPatch old p now in
          let ns := <[idx := updated]> (notes (state w)) in
          {| state := setNotes (state w) ns;
             localStorage := saveNotes ns (localStorage w) |}
      end
  end.

(** [state.notes[idx].title || 'this note'] *)
Definition promptTitle (n : Note) : string :=
  if truthy (title n) then title n else "this note".

(** The text of the confirmation prompt. *)
Definition deletePrompt (t : string) : string :=
  "Delete " +:+ String JSON.dquote
    (t +:+ String JSON.dquote "? This cannot be undone.").

(** [handleDelete()].  [confirm] is the user's answer to the prompt shown;
    it is asked only when a note is found. *)
Definition handleDelete (confirm : string → bool) (w : World) : World :=
  match findIndex (isSelected (selectedId (state w))) (notes (state w)) with
  | None => w
  | Some idx =>
      match notes (state w) !! idx with
      | None => w
      | Some n =>
          let t := promptTitle n in
          let ok := confirm (deletePrompt t) in
          if negb ok then w
          else
            let ns := delete idx (notes (state w)) in
            let ls := saveNotes ns (localStorage w) in
            let sel := if (0 <? length ns)%nat then firstId ns else None in
            {| state := setSelectedId (setNotes (state w) ns) sel;
               localStorage := saveSelectedId sel ls |}
      end
  end.

(** The listener of the search box: [state.query = e.target.value]. *)
Definition searchInput (v : string) (w : World) : World :=
  {| state := setQuery (state w) v; localStorage := localStorage w |}.

(* ===================================================================== *)
(** * Start-up *)
(* ===================================================================== *)

(** The initial [state] object and the "Initial selection if none" block,
    on the notes read from storage. *)
Definition startup (loaded : list Note) (ls : gmap string string) : World :=
  let st :=
    {| notes := loaded; selectedId := loadSelectedId ls;
       query := EmptyString; isEditingTitle := false |} in
  if negb (truthyOpt (selectedId st)) && (0 <? length (notes st))%nat then
    let st' := setSelectedId st (firstId (notes st)) in
    {| state := st'; localStorage := saveSelectedId (selectedId st') ls |}
  else {| state := st; localStorage := ls |}.

(** Module initialisation from a given storage.  The typed state exists when
    every element of the stored array is a note. *)
Definition init (ls : gmap string string) : option World :=
  match loadNotes ls with
  | Normal l => (λ ns, startup ns ls) <$> notesOfJson l
  | Throw _ => None
  end.

(* ===================================================================== *)
(** * The event loop *)
(* ===================================================================== *)

(** One user action together with what the environment answers while its
    handler runs. *)
Inductive Action : Type :=
| Add (now idTime : Z) (random36 : string)
| Select (i : string)
| Update (p : Patch) (now : Z)
| Delete (confirm : string → bool)
| Search (v : string).

Definition step (w : World) (a : Action) : World :=
  match a with
  | Add now idTime random36 => handleAddNote now idTime random36 w
  | Select i => selectNote i w
  | Update p now => updateSelectedNote p now w
  | Delete confirm => handleDelete confirm w
  | Search v => searchInput v w
  end.

Definition run (w : World) (actions : list Action) : World :=
  foldl step w actions.

(** The states the program can be in: those of a start from some storage
    followed by some actions. *)
Definition reachable (w : World) : Prop :=
  ∃ (ls : gmap string string) (w0 : World) (actions : list Action),
    init ls = Some w0 ∧ w = run w0 actions.

(** The data-model invariant of the spec. *)
Definition notesInvariant (ns : list Note) : Prop :=
  NoDup (id <$> ns) ∧ Forall (λ n, createdAt n ≤ updatedAt n) ns.

(** What the invariant needs from the environment during one action: the id
    made for a new note is not in use, and the clock read by an update is not
    before the creation time of the note it stamps. *)
Definition actionOk (w : World) (a : Action) : Prop :=
  match a with
  | Add _ idTime random36 =>
      generateId idTime random36 ∉ id <$> notes (state w)
  | Update _ now =>
      ∀ n, n ∈ notes (state w) →
           isSelected (selectedId (state w)) n = true → createdAt n ≤ now
  | _ => True
  end.

Fixpoint actionsOk (w : World) (actions : list Action) : Prop :=
  match actions with
  | [] => True
  | a :: rest => actionOk w a ∧ actionsOk (step w a) rest
  end.

(* ===================================================================== *)
(** * View helpers *)
(* ===================================================================== *)

(** [s.replace(/c/g, to)] for a pattern of one character. *)
Fixpoint replaceAll (c : ascii) (to : string) (s : string) : string :=
  match s with
  | EmptyString => EmptyString
  | String a s' =>
      if Ascii.eqb a c then to +:+ replaceAll c to s'
      else String a (replaceAll c to s')
  end.

(** [escapeHtml(str)].  [None] is [null] or [undefined]; on a string
    [String(str)] is the string itself.  The five replacements run one after
    the other, the ampersand first. *)
Definition escapeHtml (str : option string) : string :=
  match str with
  | None => EmptyString
  | Some s =>
      replaceAll "'" "&#39;"
        (replaceAll JSON.dquote "&quot;"
           (replaceAll ">" "&gt;"
              (replaceAll "<" "&lt;"
                 (replaceAll "&" "&amp;" s))))
  end.

(** The title and the preview of a sidebar item in [renderNoteItems]:
    [escapeHtml(n.title || 'Untitled')] and
    [n.content ? escapeHtml(n.content).slice(0, 80) : 'No content yet...']. *)
Definition itemTitle (n : Note) : string :=
  escapeHtml (Some (if truthy (title n) then title n else "Untitled")).

Definition itemPreview (n : Note) : string :=
  if truthy (content n) then slice (escapeHtml (Some (content n))) 0 80
  else "No content yet...".

(** [Array.prototype.find]; [None] is [undefined]. *)
Fixpoint Array_find {A} (p : A → bool) (l : list A) : option A :=
  match l with
  | [] => None
  | x :: l' => if p x then Some x else Array_find p l'
  end.

(** [state.notes.find((n) => n.id === state.selectedId)]: the note that
    [renderMainPanel] shows and [handleCopy] copies; [None] is the welcome
    placeholder. *)
Definition shownNote (st : State) : option Note :=
  Array_find (isSelected (selectedId st)) (notes st).

(** The text [handleCopy] passes to the clipboard, [None] when it returns
    before writing.  The state is not written. *)
Definition copyText (n : Note) : string :=
  "# " +:+ title n +:+ String "010" (String "010" (content n)).

Definition handleCopy (w : World) : option string :=
  copyText <$> shownNote (state w).

(* ===================================================================== *)
(** * Notions used to state further properties *)
(* ===================================================================== *)


(** [{ ...p1, ...p2 }]: the patch of two edits in a row. *)
Definition mergePatch (p1 p2 : Patch) : Patch :=
  {| patchTitle :=
       match patchTitle p2 with Some t => Some t | None => patchTitle p1 end;
     patchContent :=
       match patchContent p2 with Some c => Some c | None => patchContent p1 end |}.

(** Reading a base-36 numeral: the value of a digit, and the longest run of
    digits at the head of a text read onto [acc]. *)
Definition digit36Val (c : ascii) : option Z :=
  let n := Z.of_N (code c) in
  if (48 <=? n) && (n <=? 57) then Some (n - 48)
  else if (97 <=? n) && (n <=? 122) then Some (n - 87)
  else None.

Fixpoint readDigits36 (acc : Z) (s : string) : Z * string :=
  match s with
  | EmptyString => (acc, s)
  | String c s' =>
      match digit36Val c with
      | Some d => readDigits36 (acc * 36 + d) s'
      | None => (acc, s)
      end
  end.

(** The characters that open or close markup and attribute values. *)
Definition isMarkup (c : ascii) : bool :=
  Ascii.eqb c "<" || Ascii.eqb c ">" || Ascii.eqb c JSON.dquote
  || Ascii.eqb c "'".

Fixpoint hasMarkup (s : string) : bool :=
  match s with
  | EmptyString => false
  | String c s' => isMarkup c || hasMarkup s'
  end.

(** [escapeHtml] in one pass: what each character becomes. *)
Definition escapeChar (c : ascii) : string :=
  if Ascii.eqb c "&" then "&amp;"
  else if Ascii.eqb c "<" then "&lt;"
  else if Ascii.eqb c ">" then "&gt;"
  else if Ascii.eqb c JSON.dquote then "&quot;"
  else if Ascii.eqb c "'" then "&#39;"
  else String c EmptyString.

Fixpoint escapeOnePass (s : string) : string :=
  match s with
  | EmptyString => EmptyString
  | String c s' => escapeChar c +:+ escapeOnePass s'
  end.

(* ===================================================================== *)
(** * Facts about the platform model *)
(* ===================================================================== *)

(** Case analysis on the 256 code units of a character. *)
Ltac each_char c := destruct c as [[] [] [] [] [] [] [] []].

Module JSONFacts.
Import JSON.

(** Induction on values that reaches the elements of arrays and the
    members of objects. *)
Lemma value_ind (P : value → Prop)
    (HNull : P Null)
    (HBool : ∀ b, P (Bool b))
    (HNumber : ∀ n, P (Number n))
    (HDecimal : ∀ d, P (Decimal d))
    (HStr : ∀ s, P (Str s))
    (HArray : ∀ l, Forall P l → P (Array l))
    (HObject : ∀ m, Forall (λ kv, P kv.2) m → P (Object m)) :
  ∀ v, P v.
Proof.
  fix IH 1. intros [ | b | n | d | s | l | m ].
  - exact HNull.
  - apply HBool.
  - apply HNumber.
  - apply HDecimal.
  - apply HStr.
  - apply HArray. induction l as [ | x l IHl ]; constructor; [ apply IH | exact IHl ].
  - apply HObject. induction m as [ | [key x] m IHm ]; constructor; [ apply IH | exact IHm ].
Qed.

(** ** String literals *)

Lemma parseChars_quoteChar (c : ascii) (k : string) :
  parseChars (quoteChar c k) = consChar c (parseChars k).
Proof. each_char c; reflexivity. Qed.

Lemma parseChars_quoteChars (s k : string) :
  parseChars (quoteChars s (String dquote k)) = Some (s, k).
Proof.
  induction s as [ | c s IH ]; [ reflexivity | ].
  cbn [quoteChars]. rewrite parseChars_quoteChar, IH. reflexivity.
Qed.

(** ** Numbers *)

Lemma parseDigits_terminator (n : Z) (k : string) :
  terminator k = true → parseDigits n k = (n, k).
Proof.
  destruct k as [ | c k ]; [ reflexivity | ].
  each_char c; cbn; intros H; try discriminate H; reflexivity.
Qed.

Lemma numberTail_terminator (k : string) :
  terminator k = true → fractionPart k = Some k ∧ exponentPart k = Some k.
Proof.
  destruct k as [ | c k ]; [ split; reflexivity | ].
  each_char c; cbn; intros H; try discriminate H;
    split; reflexivity.
Qed.

Lemma digit10_spec (d : Z) :
  0 ≤ d < 10 →
  isDigit (digit10 d) = true ∧ digitVal (digit10 d) = d
  ∧ (0 < d → Ascii.eqb (digit10 d) "0" = false)
  ∧ (d = 0 → digit10 d = "0"%char).
Proof.
  intros Hd.
  assert (Hc : d = 0 ∨ d = 1 ∨ d = 2 ∨ d = 3 ∨ d = 4 ∨ d = 5 ∨ d = 6
               ∨ d = 7 ∨ d = 8 ∨ d = 9) by lia.
  repeat destruct Hc as [-> | Hc]; try subst d;
    (split; [ reflexivity | ]; split; [ reflexivity | ];
     split; intros; try reflexivity; lia).
Qed.

Lemma parseDigits_writeDigits (fuel : nat) :
  ∀ (n : Z) (k : string),
    0 ≤ n < 2 ^ Z.of_nat fuel →
    parseDigits 0 (writeDigits fuel n k) = parseDigits n k.
Proof.
  induction fuel as [ | fuel IH ]; intros n k Hn.
  - cbn in Hn. assert (n = 0) by lia. subst n. reflexivity.
  - cbn [writeDigits]. destruct (Z.ltb_spec n 10) as [Hlt | Hge].
    + destruct (digit10_spec (n mod 10)) as (Hd & Hv & _).
      { apply Z.mod_pos_bound; lia. }
      cbn [parseDigits]. rewrite Hd, Hv. f_equal.
      rewrite Z.mod_small by lia. lia.
    + rewrite IH.
      * destruct (digit10_spec (n mod 10)) as (Hd & Hv & _).
        { apply Z.mod_pos_bound; lia. }
        cbn [parseDigits]. rewrite Hd, Hv. f_equal.
        pose proof (Z.div_mod n 10). lia.
      * rewrite Nat2Z.inj_succ, Z.pow_succ_r in Hn by lia.
        split; [ apply Z.div_pos; lia | ].
        apply Z.div_lt_upper_bound; lia.
Qed.

(** The digits of a positive number start with a non-zero digit. *)
Lemma writeDigits_head (fuel : nat) :
  ∀ (n : Z) (k : string),
    0 < n < 2 ^ Z.of_nat fuel →
    ∃ c r, writeDigits fuel n k = String c r
           ∧ isDigit c = true ∧ Ascii.eqb c "0" = false.
Proof.
  induction fuel as [ | fuel IH ]; intros n k Hn.
  - cbn in Hn. lia.
  - cbn [writeDigits]. destruct (Z.ltb_spec n 10) as [Hlt | Hge].
    + destruct (digit10_spec (n mod 10)) as (Hd & _ & Hnz & _).
      { apply Z.mod_pos_bound; lia. }
      eexists _, _. split; [ reflexivity | ]. split; [ exact Hd | ].
      apply Hnz. rewrite Z.mod_small by lia. lia.
    + apply IH.
      rewrite Nat2Z.inj_succ, Z.pow_succ_r in Hn by lia.
      split; [ apply Z.div_str_pos; lia | ].
      apply Z.div_lt_upper_bound; lia.
Qed.

Lemma fuel_enough (m : Z) : 0 ≤ m → m < 2 ^ Z.of_nat (S (Z.to_nat (Z.log2 m))).
Proof.
  intros Hm. rewrite Nat2Z.inj_succ, Z2Nat.id by apply Z.log2_nonneg.
  destruct (Z.eq_dec m 0) as [-> | Hne]; [ reflexivity | ].
  apply Z.log2_spec. lia.
Qed.

Lemma parseInt_writeDigits (m : Z) (k : string) :
  0 ≤ m → terminator k = true →
  parseInt (writeDigits (S (Z.to_nat (Z.log2 m))) m k) = Some (m, k).
Proof.
  intros Hm Hk. pose proof (fuel_enough m Hm) as Hfuel.
  destruct (Z.eq_dec m 0) as [-> | Hne].
  - reflexivity.
  - pose proof (parseDigits_writeDigits _ m k (conj Hm Hfuel)) as Hp.
    destruct (writeDigits_head _ m k (conj (ltac:(lia) : 0 < m) Hfuel))
      as (c & r & Heq & Hd & Hnz).
    rewrite Heq in Hp |- *. cbn [parseInt]. rewrite Hnz, Hd.
    cbn [parseDigits] in Hp. rewrite Hd in Hp.
    change (0 * 10 + digitVal c) with (digitVal c) in Hp. rewrite Hp.
    rewrite parseDigits_terminator by exact Hk. reflexivity.
Qed.

(** ** The first character of a value *)

Lemma valueStart_not_closing (c : ascii) :
  valueStart c = true →
  isJsonWs c = false ∧ Ascii.eqb c "]" = false ∧ Ascii.eqb c "}" = false.
Proof.
  each_char c; cbn; intros H;
    try discriminate H; repeat split.
Qed.

Lemma parseValue_numberStart (fuel : nat) (c : ascii) (r : string) :
  numberStart c = true →
  parseValue (S fuel) (String c r) = parseNumber (String c r).
Proof.
  each_char c; cbn; intros H;
    try discriminate H; reflexivity.
Qed.

Lemma isDigit_not_minus (c : ascii) :
  isDigit c = true → Ascii.eqb c "-" = false.
Proof.
  each_char c; cbn; intros H;
    try discriminate H; reflexivity.
Qed.

Lemma writeDigits_digit (fuel : nat) :
  ∀ (n : Z) (k : string),
    0 ≤ n →
    ∃ c r, writeDigits (S fuel) n k = String c r ∧ isDigit c = true.
Proof.
  induction fuel as [ | fuel IH ]; intros n k Hn.
  - destruct (digit10_spec (n mod 10)) as (Hd & _).
    { apply Z.mod_pos_bound; lia. }
    cbn [writeDigits]. destruct (n <? 10); eauto.
  - destruct (digit10_spec (n mod 10)) as (Hd & _).
    { apply Z.mod_pos_bound; lia. }
    rewrite (eq_refl : writeDigits (S (S fuel)) n k
      = if n <? 10 then String (digit10 (n mod 10)) k
        else writeDigits (S fuel) (n / 10) (String (digit10 (n mod 10)) k)).
    destruct (Z.ltb_spec n 10); [ eauto | ].
    apply IH, Z.div_pos; lia.
Qed.

Lemma writeNumber_head (n : Z) (k : string) :
  ∃ c r, writeNumber n k = String c r ∧ numberStart c = true.
Proof.
  unfold writeNumber. destruct (n <? 0).
  - eexists _, _. split; reflexivity.
  - destruct (writeDigits_digit (Z.to_nat (Z.log2 (Z.abs n))) (Z.abs n) k)
      as (c & r & Heq & Hd); [ lia | ].
    exists c, r. split; [ exact Heq | ]. unfold numberStart. rewrite Hd. reflexivity.
Qed.

Lemma parseNumber_writeNumber (n : Z) (k : string) :
  terminator k = true → parseNumber (writeNumber n k) = Some (Number n, k).
Proof.
  intros Hk. destruct (numberTail_terminator k Hk) as [Hfrac Hexp].
  unfold writeNumber. destruct (Z.ltb_spec n 0) as [Hneg | Hpos].
  - cbn [parseNumber]. change (Ascii.eqb "-" "-") with true. cbn match.
    rewrite parseInt_writeDigits by (lia || exact Hk).
    rewrite Hfrac, Hexp, Nat.eqb_refl. do 3 f_equal. lia.
  - destruct (writeDigits_digit (Z.to_nat (Z.log2 (Z.abs n))) (Z.abs n) k)
      as (c & r & Heq & Hd); [ lia | ].
    pose proof (parseInt_writeDigits (Z.abs n) k ltac:(lia) Hk) as Hp.
    rewrite Heq in Hp |- *. cbn [parseNumber].
    rewrite (isDigit_not_minus c Hd), Hp.
    rewrite Hfrac, Hexp, Nat.eqb_refl. do 3 f_equal. lia.
Qed.

Lemma write_head (v : value) (k : string) :
  wf v → ∃ c r, write v k = String c r ∧ valueStart c = true.
Proof.
  intros Hwf.
  destruct Hwf as [ | [] | n | s | [ | x l] _ | [ | [key x] m] _ _ ];
    try (eexists _, _; split; reflexivity).
  destruct (writeNumber_head n k) as (c & r & Heq & Hc).
  exists c, r. split; [ exact Heq | ]. unfold valueStart. rewrite Hc. reflexivity.
Qed.

(** ** Unfolding the parser at a known first character *)

Lemma parseValue_Str (fuel : nat) (r : string) :
  parseValue (S fuel) (String dquote r)
  = match parseChars r with
    | Some (str, r') => Some (Str str, r')
    | None => None
    end.
Proof. reflexivity. Qed.

Lemma parseValue_Array (fuel : nat) (c : ascii) (r : string) :
  valueStart c = true →
  parseValue (S fuel) (String "[" (String c r))
  = match parseElements fuel (String c r) with
    | Some (l, r') => Some (Array l, r')
    | None => None
    end.
Proof.
  each_char c; cbn; intros H;
    try discriminate H; reflexivity.
Qed.

Lemma parseValue_Object (fuel : nat) (r : string) :
  parseValue (S fuel) (String "{" (String dquote r))
  = match parseMembers fuel (String dquote r) with
    | Some (m, r') => Some (Object (objOfList m), r')
    | None => None
    end.
Proof. reflexivity. Qed.

Lemma parseKey_quote (key r : string) :
  parseKey (quote key (String ":" r)) = Some (key, r).
Proof.
  unfold quote, parseKey. cbn [skipWs]. change (isJsonWs dquote) with false.
  cbn match. change (Ascii.eqb dquote dquote) with true. cbn match.
  rewrite parseChars_quoteChars. reflexivity.
Qed.

(** ** Objects *)

Lemma objSet_fresh (key : string) (v : value) (m : list (string * value)) :
  key ∉ m.*1 → objSet key v m = m ++ [(key, v)].
Proof.
  induction m as [ | [key' v'] m IH ]; intros Hnot; [ reflexivity | ].
  cbn [objSet]. rewrite fmap_cons, not_elem_of_cons in Hnot.
  destruct Hnot as [Hne Hnot]. cbn in Hne.
  destruct (String.eqb_spec key key') as [-> | _]; [ done | ].
  rewrite IH by exact Hnot. reflexivity.
Qed.

Lemma foldl_objSet (kvs acc : list (string * value)) :
  NoDup (acc ++ kvs).*1 →
  foldl (λ m kv, objSet kv.1 kv.2 m) acc kvs = acc ++ kvs.
Proof.
  revert acc. induction kvs as [ | [key v] kvs IH ]; intros acc Hnd.
  - cbn. rewrite app_nil_r. reflexivity.
  - cbn [foldl fst snd]. rewrite objSet_fresh.
    + rewrite IH; rewrite <- app_assoc; [ reflexivity | exact Hnd ].
    + rewrite fmap_app, fmap_cons in Hnd.
      apply NoDup_app in Hnd as (_ & Hdisj & _).
      intros Hin. apply (Hdisj _ Hin). left.
Qed.

Lemma objOfList_NoDup (kvs : list (string * value)) :
  NoDup kvs.*1 → objOfList kvs = kvs.
Proof. intros Hnd. unfold objOfList. rewrite foldl_objSet; done. Qed.

(** ** Reading back what [write] wrote *)

Lemma parseElements_S (fuel : nat) (s : string) :
  parseElements (S fuel) s
  = match parseValue fuel s with
    | Some (v, r) =>
        match skipWs r with
        | EmptyString => None
        | String c r' =>
            if Ascii.eqb c "," then
              match parseElements fuel r' with
              | Some (l, r'') => Some (v :: l, r'')
              | None => None
              end
            else if Ascii.eqb c "]" then Some ([v], r')
            else None
        end
    | None => None
    end.
Proof. reflexivity. Qed.

Lemma parseMembers_S (fuel : nat) (s : string) :
  parseMembers (S fuel) s
  = match parseKey s with
    | Some (key, r0) =>
        match parseValue fuel r0 with
        | Some (v, r) =>
            match skipWs r with
            | EmptyString => None
            | String c r' =>
                if Ascii.eqb c "," then
                  match parseMembers fuel r' with
                  | Some (m, r'') => Some ((key, v) :: m, r'')
                  | None => None
                  end
                else if Ascii.eqb c "}" then Some ([(key, v)], r')
                else None
            end
        | None => None
        end
    | None => None
    end.
Proof. reflexivity. Qed.

Lemma parseElements_write (l : list value) :
  Forall readsBack l →
  ∀ (x : value) (fuel : nat) (k : string),
    readsBack x →
    (S (size x + foldr (λ y n, S (size y + n)) O l) ≤ fuel)%nat →
    terminator k = true →
    parseElements fuel (write x (writeRest write "]" k l)) = Some (x :: l, k).
Proof.
  induction 1 as [ | y l Hy Hl IH ]; intros x fuel k Hx Hfuel Hk;
    (destruct fuel as [ | fuel ]; [ lia | ]); rewrite parseElements_S.
  - rewrite Hx; [ reflexivity | cbn in Hfuel; lia | reflexivity ].
  - rewrite Hx; [ | cbn in Hfuel; lia | reflexivity ].
    cbn [writeRest skipWs]. change (isJsonWs ",") with false. cbn match.
    change (Ascii.eqb "," ",") with true. cbn match.
    rewrite (IH y fuel k Hy); [ reflexivity | cbn in Hfuel |- *; lia | exact Hk ].
Qed.

Lemma parseMembers_write (m : list (string * value)) :
  Forall (λ kv, readsBack kv.2) m →
  ∀ (key : string) (x : value) (fuel : nat) (k : string),
    readsBack x →
    (S (size x + foldr (λ kv n, S (size kv.2 + n)) O m) ≤ fuel)%nat →
    terminator k = true →
    parseMembers fuel
      (quote key (String ":" (write x
         (writeRest (λ kv k', quote kv.1 (String ":" (write kv.2 k')))
            "}" k m))))
    = Some ((key, x) :: m, k).
Proof.
  induction 1 as [ | [key' y] m Hy Hm IH ]; intros key x fuel k Hx Hfuel Hk;
    (destruct fuel as [ | fuel ]; [ lia | ]);
    rewrite parseMembers_S, parseKey_quote.
  - rewrite Hx; [ reflexivity | cbn in Hfuel; lia | reflexivity ].
  - rewrite Hx; [ | cbn in Hfuel; lia | reflexivity ].
    cbn [writeRest skipWs]. change (isJsonWs ",") with false. cbn match.
    change (Ascii.eqb "," ",") with true. cbn match. cbn [fst snd].
    rewrite (IH key' y fuel k Hy); [ reflexivity | cbn in Hfuel |- *; lia | exact Hk ].
Qed.

Lemma Forall_modus {A} (P Q : A → Prop) (l : list A) :
  Forall (λ x, P x → Q x) l → Forall P l → Forall Q l.
Proof. induction 1; inversion 1; constructor; auto. Qed.

Lemma parseValue_write (v : value) : wf v → readsBack v.
Proof.
  induction v as [ | b | n | d | s | l IH | m IH ] using value_ind;
    intros Hwf fuel k Hfuel Hk;
    (destruct fuel as [ | fuel ]; [ cbn in Hfuel; lia | ]).
  - reflexivity.
  - destruct b; reflexivity.
  - cbn [write]. destruct (writeNumber_head n k) as (c & r & Heq & Hc).
    pose proof (parseNumber_writeNumber n k Hk) as Hp.
    rewrite Heq in Hp |- *. rewrite parseValue_numberStart by exact Hc.
    exact Hp.
  - inversion Hwf.
  - cbn [write]. unfold quote. rewrite parseValue_Str, parseChars_quoteChars.
    reflexivity.
  - inversion_clear Hwf as [ | | | | ? Hl | ].
    destruct l as [ | x l ]; [ reflexivity | ].
    apply Forall_cons in IH as [IHx IHl]. apply Forall_cons in Hl as [Hx Hl].
    cbn [write]. destruct (write_head x (writeRest write "]" k l) Hx)
      as (c & r & Heq & Hc).
    pose proof (parseElements_write l) as Hp.
    specialize (Hp (Forall_modus _ _ _ IHl Hl)).
    specialize (Hp x fuel k (IHx Hx)). rewrite Heq in Hp |- *.
    rewrite parseValue_Array by exact Hc.
    rewrite Hp; [ reflexivity | cbn in Hfuel; lia | exact Hk ].
  - inversion_clear Hwf as [ | | | | | ? Hnd Hm ].
    destruct m as [ | [key x] m ]; [ reflexivity | ].
    apply Forall_cons in IH as [IHx IHm]. apply Forall_cons in Hm as [Hx Hm].
    cbn [write]. unfold quote at 1. rewrite parseValue_Object.
    change (String dquote (quoteChars key (String dquote ?r)))
      with (quote key r).
    rewrite parseMembers_write.
    + rewrite objOfList_NoDup by exact Hnd. reflexivity.
    + exact (Forall_modus _ _ _ IHm Hm).
    + exact (IHx Hx).
    + cbn in Hfuel. lia.
    + exact Hk.
Qed.

(** ** The text is at least as long as the fuel it takes to read it *)

Lemma quoteChar_length (c : ascii) (k : string) :
  (S (String.length k) ≤ String.length (quoteChar c k))%nat.
Proof.
  each_char c; unfold quoteChar; simpl; lia.
Qed.

Lemma quoteChars_length (s k : string) :
  (String.length k ≤ String.length (quoteChars s k))%nat.
Proof.
  induction s as [ | c s IH ]; cbn [quoteChars]; [ lia | ].
  pose proof (quoteChar_length c (quoteChars s k)). lia.
Qed.

Lemma quote_length (s k : string) :
  (2 + String.length k ≤ String.length (quote s k))%nat.
Proof.
  unfold quote. cbn [String.length].
  pose proof (quoteChars_length s (String dquote k)) as H.
  cbn [String.length] in H. lia.
Qed.

Lemma writeDigits_length (fuel : nat) :
  ∀ (n : Z) (k : string),
    (String.length k ≤ String.length (writeDigits fuel n k))%nat.
Proof.
  induction fuel as [ | fuel IH ]; intros n k; cbn [writeDigits]; [ lia | ].
  destruct (n <? 10); [ cbn [String.length]; lia | ].
  etransitivity; [ | apply IH ]. cbn [String.length]. lia.
Qed.

Lemma writeNumber_length (n : Z) (k : string) :
  (1 + String.length k ≤ String.length (writeNumber n k))%nat.
Proof.
  unfold writeNumber.
  assert (H : (1 + String.length k ≤ String.length
    (writeDigits (S (Z.to_nat (Z.log2 (Z.abs n)))) (Z.abs n) k))%nat).
  { cbn [writeDigits]. destruct (Z.abs n <? 10); [ cbn [String.length]; lia | ].
    etransitivity; [ | apply writeDigits_length ]. cbn [String.length]. lia. }
  destruct (n <? 0); cbn [String.length]; lia.
Qed.

Lemma write_length (v : value) :
  wf v →
  ∀ k : string, (size v + String.length k ≤ String.length (write v k))%nat.
Proof.
  induction v as [ | b | n | d | s | l IH | m IH ] using value_ind;
    intros Hwf k.
  - cbv [write size String.append]. cbn [String.length]. lia.
  - destruct b; cbv [write size String.append]; cbn [String.length]; lia.
  - cbn [write size]. apply writeNumber_length.
  - inversion Hwf.
  - cbn [write size]. pose proof (quote_length s k). lia.
  - inversion_clear Hwf as [ | | | | ? Hl | ].
    pose proof (Forall_modus _ _ _ IH Hl) as Hlen. clear IH Hl.
    destruct l as [ | x l ];
      [ cbv [write size String.append foldr]; cbn [String.length]; lia | ].
    apply Forall_cons in Hlen as [Hx Hlen].
    cbn [write size foldr String.length].
    etransitivity; [ | apply le_n_S, Hx ].
    enough (foldr (λ y n, S (size y + n)) O l + String.length k
            < String.length (writeRest write "]" k l))%nat by lia.
    clear Hx. induction Hlen as [ | y l Hy _ IHl ];
      cbn [foldr writeRest String.length]; [ lia | ].
    specialize (Hy (writeRest write "]" k l)). lia.
  - inversion_clear Hwf as [ | | | | | ? _ Hm ].
    pose proof (Forall_modus _ _ _ IH Hm) as Hlen. clear IH Hm.
    destruct m as [ | [key x] m ];
      [ cbv [write size String.append foldr]; cbn [String.length]; lia | ].
    apply Forall_cons in Hlen as [Hx Hlen]. cbn [snd] in Hx.
    cbn [write size foldr String.length snd].
    match goal with
    | |- (_ ≤ S (String.length (quote key ?r)))%nat =>
        pose proof (quote_length key r) as Hq; cbn [String.length] in Hq
    end.
    match type of Hq with
    | (_ ≤ String.length (quote key (String ":" (write x ?r))))%nat =>
        specialize (Hx r);
        enough (foldr (λ kv n, S (size kv.2 + n)) O m + String.length k
                < String.length r)%nat by lia
    end.
    clear Hx Hq.
    induction Hlen as [ | [key' y] m Hy _ IHm ];
      cbn [foldr writeRest String.length fst snd]; [ lia | ].
    match goal with
    | |- context [quote key' (String ":" (write y ?r))] =>
        pose proof (quote_length key' (String ":" (write y r))) as Hq;
        specialize (Hy r)
    end.
    cbn [String.length snd] in *. lia.
Qed.

(** [JSON.parse(JSON.stringify(v))] is [v]. *)
Lemma parse_stringify (v : value) : wf v → parse (stringify v) = Some v.
Proof.
  intros Hwf. unfold parse, stringify.
  rewrite (parseValue_write v Hwf); [ reflexivity | | reflexivity ].
  pose proof (write_length v Hwf EmptyString). cbn [String.length] in *. lia.
Qed.

Lemma parse_empty : parse EmptyString = None.
Proof. reflexivity. Qed.

End JSONFacts.

Module JsStringFacts.
Import JsString.

Lemma append_cons (c : ascii) (s t : string) :
  String c s +:+ t = String c (s +:+ t).
Proof. reflexivity. Qed.

Lemma append_nil (t : string) : EmptyString +:+ t = t.
Proof. reflexivity. Qed.

Lemma startsWith_spec (s q : string) :
  startsWith s q = true ↔ ∃ post, s = q +:+ post.
Proof.
  revert s. induction q as [ | a q IH ]; intros s.
  - destruct s; (split; [ intros _; eexists; reflexivity | reflexivity ]).
  - destruct s as [ | b s ].
    + split; [ discriminate | intros (post & H); discriminate H ].
    + cbn [startsWith]. rewrite andb_true_iff, IH. split.
      * intros (Hab & post & ->). apply Ascii.eqb_eq in Hab as ->.
        exists post. reflexivity.
      * intros (post & H). rewrite append_cons in H. injection H as -> ->.
        split; [ apply Ascii.eqb_refl | eauto ].
Qed.

(** [includes] decides the substring relation. *)
Lemma includes_spec (s q : string) :
  includes s q = true ↔ substring_of q s.
Proof.
  unfold substring_of. induction s as [ | c s IH ].
  - cbn [includes]. rewrite orb_false_r, startsWith_spec. split.
    + intros (post & ->). exists EmptyString, post. reflexivity.
    + intros ([ | ] & post & H); [ eauto | discriminate H ].
  - cbn [includes]. rewrite orb_true_iff, startsWith_spec, IH. split.
    + intros [(post & ->) | (pre & post & ->)].
      * exists EmptyString, post. reflexivity.
      * exists (String c pre), post. reflexivity.
    + intros ([ | c' pre] & post & H).
      * left. eauto.
      * right. rewrite append_cons in H. injection H as -> ->. eauto.
Qed.

Lemma includes_empty_haystack (q : string) :
  truthy q = true → includes EmptyString q = false.
Proof. destruct q; [ discriminate | reflexivity ]. Qed.

Lemma includes_empty_needle (s : string) : includes s EmptyString = true.
Proof. destruct s; reflexivity. Qed.

Lemma truthy_toLowerCase (s : string) : truthy (toLowerCase s) = truthy s.
Proof. destruct s; reflexivity. Qed.

Lemma truthy_false (s : string) : truthy s = false ↔ s = EmptyString.
Proof. destruct s; split; (reflexivity || discriminate). Qed.

End JsStringFacts.

Section ArraySortFacts.
Context {A : Type} (key : A → Z).

Lemma sort_insert_Permutation (x : A) (l : list A) :
  sort_insert (descendingBy key) x l ≡ₚ x :: l.
Proof.
  induction l as [ | y l IH ]; [ reflexivity | ].
  cbn [sort_insert]. destruct ((descendingBy key) x y <=? 0); [ reflexivity | ].
  rewrite IH. apply Permutation_swap.
Qed.

Lemma Array_sort_Permutation (l : list A) : Array_sort (descendingBy key) l ≡ₚ l.
Proof.
  induction l as [ | x l IH ]; [ reflexivity | ].
  cbn [Array_sort foldr]. fold (Array_sort (descendingBy key) l).
  rewrite sort_insert_Permutation, IH. reflexivity.
Qed.

Lemma sort_insert_sorted (x : A) (l : list A) :
  StronglySorted (λ a b, key b ≤ key a) l →
  StronglySorted (λ a b, key b ≤ key a) (sort_insert (descendingBy key) x l).
Proof.
  induction 1 as [ | y l Hl IH Hy ]; cbn [sort_insert].
  - repeat constructor.
  - unfold descendingBy at 1. destruct (Z.leb_spec (key y - key x) 0) as [Hle | Hgt].
    + constructor; [ constructor; assumption | ].
      constructor; [ lia | ].
      eapply Forall_impl; [ exact Hy | ]. cbn. intros z Hz. lia.
    + constructor; [ exact IH | ].
      rewrite sort_insert_Permutation. constructor; [ lia | exact Hy ].
Qed.

Lemma Array_sort_sorted (l : list A) :
  StronglySorted (λ a b, key b ≤ key a) (Array_sort (descendingBy key) l).
Proof.
  induction l as [ | x l IH ]; [ constructor | ].
  cbn [Array_sort foldr]. apply sort_insert_sorted, IH.
Qed.

(** Stability: the elements of one key keep the order of the input. *)
Lemma sort_insert_stable (t : Z) (x : A) (l : list A) :
  List.filter (λ a, key a =? t) (sort_insert (descendingBy key) x l)
  = List.filter (λ a, key a =? t) (x :: l).
Proof.
  induction l as [ | y l IH ]; [ reflexivity | ].
  cbn [sort_insert]. unfold descendingBy at 1.
  destruct (Z.leb_spec (key y - key x) 0) as [Hle | Hgt]; [ reflexivity | ].
  cbn [List.filter] in IH |- *. rewrite IH.
  destruct (Z.eqb_spec (key y) t), (Z.eqb_spec (key x) t); try reflexivity. lia.
Qed.

Lemma Array_sort_stable (t : Z) (l : list A) :
  List.filter (λ a, key a =? t) (Array_sort (descendingBy key) l)
  = List.filter (λ a, key a =? t) l.
Proof.
  induction l as [ | x l IH ]; [ reflexivity | ].
  cbn [Array_sort foldr]. fold (Array_sort (descendingBy key) l).
  rewrite sort_insert_stable. cbn [List.filter]. rewrite IH. reflexivity.
Qed.

(** A sorted list is determined by its runs of equal keys: the stable sort
    is the only sorted arrangement that keeps every run in input order. *)
Lemma sorted_stable_unique (l1 l2 : list A) :
  StronglySorted (λ a b, key b ≤ key a) l1 →
  StronglySorted (λ a b, key b ≤ key a) l2 →
  (∀ t, List.filter (λ a, key a =? t) l1 = List.filter (λ a, key a =? t) l2) →
  l1 = l2.
Proof.
  intros H1. revert l2. induction H1 as [ | x l1 Hs1 IH Hx ]; intros l2 H2 Heq.
  - destruct l2 as [ | y l2 ]; [ reflexivity | ].
    specialize (Heq (key y)). cbn in Heq. rewrite Z.eqb_refl in Heq.
    discriminate Heq.
  - destruct H2 as [ | y l2 Hs2 Hy ].
    + specialize (Heq (key x)). cbn in Heq. rewrite Z.eqb_refl in Heq.
      discriminate Heq.
    + assert (Hmem : ∀ (l : list A) (z : A),
                z ∈ List.filter (λ a, key a =? key z) l ↔ z ∈ l).
      { intros l z. rewrite !list_elem_of_In, filter_In, Z.eqb_refl. tauto. }
      assert (Hk : key x = key y).
      { pose proof (Heq (key x)) as Ex. pose proof (Heq (key y)) as Ey.
        assert (Hxin : x ∈ y :: l2).
        { apply Hmem. rewrite <- Ex. apply Hmem. left. }
        assert (Hyin : y ∈ x :: l1).
        { apply Hmem. rewrite Ey. apply Hmem. left. }
        apply elem_of_cons in Hxin as [-> | Hxin]; [ reflexivity | ].
        apply elem_of_cons in Hyin as [-> | Hyin]; [ reflexivity | ].
        rewrite Forall_forall in Hx, Hy.
        pose proof (Hx y Hyin). pose proof (Hy x Hxin). lia. }
      pose proof (Heq (key x)) as Ex. cbn [List.filter] in Ex.
      rewrite Z.eqb_refl, <- Hk, Z.eqb_refl in Ex. injection Ex as -> Ex.
      f_equal. apply IH; [ exact Hs2 | ].
      intros t. specialize (Heq t). cbn [List.filter] in Heq.
      destruct (key y =? t); [ injection Heq as Heq | ]; exact Heq.
Qed.


(** [Array_sort] is the stable sort: any arrangement that is sorted and keeps
    the runs of equal keys in input order is the one it returns. *)
Lemma Array_sort_unique (l l' : list A) :
  StronglySorted (λ a b, key b ≤ key a) l' →
  (∀ t, List.filter (λ a, key a =? t) l' = List.filter (λ a, key a =? t) l) →
  l' = Array_sort (descendingBy key) l.
Proof.
  intros Hsorted Hstable. apply sorted_stable_unique.
  - exact Hsorted.
  - apply Array_sort_sorted.
  - intros t. rewrite Hstable, Array_sort_stable. reflexivity.
Qed.

End ArraySortFacts.

(* ===================================================================== *)
(** * The filter/sort engine *)
(* ===================================================================== *)

Section FilterFacts.
Context {A : Type}.

Lemma filter_filter_andb (f g : A → bool) (l : list A) :
  List.filter f (List.filter g l) = List.filter (λ x, f x && g x) l.
Proof.
  induction l as [ | x l IH ]; [ reflexivity | ].
  cbn [List.filter]. destruct (g x); cbn [List.filter];
    destruct (f x); cbn [andb]; rewrite IH; reflexivity.
Qed.

Lemma filter_andb_split (f g : A → bool) (l : list A) :
  List.filter (λ x, f x && g x) l = List.filter g (List.filter f l).
Proof.
  induction l as [ | x l IH ]; [ reflexivity | ].
  cbn [List.filter]. destruct (f x); cbn [List.filter andb];
    [ destruct (g x) | ]; rewrite IH; reflexivity.
Qed.

Lemma StronglySorted_filter (R : A → A → Prop) (f : A → bool) (l : list A) :
  StronglySorted R l → StronglySorted R (List.filter f l).
Proof.
  induction 1 as [ | x l Hl IH Hx ]; [ constructor | ].
  cbn [List.filter]. destruct (f x); [ | exact IH ].
  constructor; [ exact IH | ].
  rewrite Forall_forall in Hx |- *. intros y Hy.
  apply list_elem_of_In, filter_In in Hy as [Hy _].
  apply Hx, list_elem_of_In, Hy.
Qed.
End FilterFacts.

Import JsString JsStringFacts.

Lemma matchesQuery_retains (q : string) (n : Note) :
  truthy q = true → matchesQuery q n = retains q n.
Proof.
  intros Hq. unfold matchesQuery, retains. rewrite Hq. cbn [negb orb].
  assert (H : ∀ s, truthy s && includes (toLowerCase s) q
                   = includes (toLowerCase s) q).
  { intros [ | c s ]; [ | reflexivity ].
    cbn [toLowerCase truthy andb]. symmetry. apply includes_empty_haystack, Hq. }
  rewrite !H. reflexivity.
Qed.

Lemma retains_spec (q : string) (n : Note) :
  retains q n = true
  ↔ q = EmptyString
    ∨ substring_of q (toLowerCase (title n))
    ∨ substring_of q (toLowerCase (content n)).
Proof.
  unfold retains. rewrite !orb_true_iff, negb_true_iff, truthy_false,
    !includes_spec. tauto.
Qed.

(** C1.  [getFilteredNotes] returns the notes in descending order of
    [updatedAt]; notes with the same [updatedAt] keep the order of the
    collection (the sort is stable); a note is returned exactly when it is in
    the collection and its case-folded title or content contains the trimmed,
    case-folded query (every note when that query is empty), as often as it
    occurs in the collection; and with an empty trimmed query the result is
    the whole sorted collection. *)
Theorem getFilteredNotes_sorted_and_filtered (st : State) :
  let q := toLowerCase (trim (query st)) in
  let out := getFilteredNotes st in
  StronglySorted (λ a b, updatedAt b ≤ updatedAt a) out
  ∧ (∀ t : Z,
       List.filter (λ n, updatedAt n =? t) out
       = List.filter (λ n, (updatedAt n =? t) && retains q n) (notes st))
  ∧ (∀ n : Note,
       n ∈ out
       ↔ n ∈ notes st
         ∧ (q = EmptyString
            ∨ substring_of q (toLowerCase (title n))
            ∨ substring_of q (toLowerCase (content n))))
  ∧ (q = EmptyString →
       out = Array_sort byUpdatedDesc (notes st) ∧ out ≡ₚ notes st).
Proof.
  intros q out.
  assert (Hout : out = List.filter (retains q) (Array_sort byUpdatedDesc (notes st))).
  { subst out. unfold getFilteredNotes. fold q.
    destruct (truthy q) eqn:Hq; cbn [negb].
    - apply filter_ext. intros n. apply matchesQuery_retains, Hq.
    - symmetry. apply forallb_filter_id, forallb_forall. intros n _.
      unfold retains. rewrite Hq. reflexivity. }
  split; [ | split; [ | split ] ].
  - rewrite Hout. apply StronglySorted_filter, (Array_sort_sorted updatedAt).
  - intros t. rewrite Hout, filter_filter_andb, !filter_andb_split.
    f_equal. apply (Array_sort_stable updatedAt).
  - intros n. rewrite Hout, !list_elem_of_In, filter_In, retains_spec.
    rewrite <- !list_elem_of_In.
    rewrite (Array_sort_Permutation updatedAt (notes st)). reflexivity.
  - intros Hq. assert (Hid : out = Array_sort byUpdatedDesc (notes st)).
    { rewrite Hout. apply forallb_filter_id, forallb_forall. intros n _.
      apply retains_spec. left. exact Hq. }
    split; [ exact Hid | ]. rewrite Hid.
    apply (Array_sort_Permutation updatedAt).
Qed.

(* ===================================================================== *)
(** * The persistence adapter *)
(* ===================================================================== *)

Lemma loadNotes_value (ls : gmap string string) :
  loadNotes ls
  = Normal
      match ls !! STORAGE_KEY with
      | None => []
      | Some raw =>
          match JSON.parse raw with
          | Some (JSON.Array l) => l
          | _ => []
          end
      end.
Proof.
  unfold loadNotes, getItem. destruct (ls !! STORAGE_KEY) as [raw | ]; [ | reflexivity ].
  destruct raw as [ | c raw ]; [ reflexivity | ].
  cbn [truthy negb]. unfold JSON_parse.
  destruct (JSON.parse (String c raw)) as [ [ | | | | | | ] | ]; reflexivity.
Qed.

(** C3.  [loadNotes] never raises: for every content of storage it returns
    normally.  It returns the empty array when the notes key is absent, when
    the stored text does not parse, and when it parses to something that is
    not an array; otherwise it returns the parsed array. *)
Theorem loadNotes_never_raises (ls : gmap string string) :
  ∃ l : list JSON.value,
    loadNotes ls = Normal l
    ∧ match ls !! STORAGE_KEY with
      | None => l = []
      | Some raw =>
          match JSON.parse raw with
          | None => l = []
          | Some (JSON.Array elements) => l = elements
          | Some _ => l = []
          end
      end.
Proof.
  eexists. split; [ apply loadNotes_value | ].
  destruct (ls !! STORAGE_KEY) as [raw | ]; [ | reflexivity ].
  destruct (JSON.parse raw) as [ [ | | | | | | ] | ]; reflexivity.
Qed.

Lemma startup_notes (loaded : list Note) (ls : gmap string string) :
  notes (state (startup loaded ls)) = loaded.
Proof. unfold startup. cbn [notes selectedId]. destruct (_ && _); reflexivity. Qed.

Lemma noteToJson_wf (n : Note) : JSON.wf (noteToJson n).
Proof.
  constructor.
  - apply (bool_decide_unpack _). reflexivity.
  - repeat constructor.
Qed.

Lemma notes_wf (ns : list Note) : JSON.wf (JSON.Array (noteToJson <$> ns)).
Proof.
  constructor. induction ns; constructor; [ apply noteToJson_wf | assumption ].
Qed.

Lemma noteOfJson_noteToJson (n : Note) : noteOfJson (noteToJson n) = Some n.
Proof. destruct n. reflexivity. Qed.

Lemma notesOfJson_noteToJson (ns : list Note) :
  notesOfJson (noteToJson <$> ns) = Some ns.
Proof.
  apply mapM_Some. induction ns; constructor;
    [ apply noteOfJson_noteToJson | assumption ].
Qed.

Lemma loadNotes_saveNotes (ns : list Note) (ls : gmap string string) :
  loadNotes (saveNotes ns ls) = Normal (noteToJson <$> ns).
Proof.
  rewrite loadNotes_value. unfold saveNotes, setItem.
  rewrite lookup_insert_eq, JSONFacts.parse_stringify by apply notes_wf.
  reflexivity.
Qed.

(** C4.  After [saveNotes(N)], [loadNotes()] returns the array of the notes
    of [N], in order; every one of them reads back as the note that was saved;
    and a start from that storage has [N] as its collection. *)
Theorem saveNotes_loadNotes_roundtrip (N : list Note) (ls : gmap string string) :
  loadNotes (saveNotes N ls) = Normal (noteToJson <$> N)
  ∧ notesOfJson (noteToJson <$> N) = Some N
  ∧ ∃ w, init (saveNotes N ls) = Some w ∧ notes (state w) = N.
Proof.
  split; [ apply loadNotes_saveNotes | ].
  split; [ apply notesOfJson_noteToJson | ].
  exists (startup N (saveNotes N ls)). split; [ | apply startup_notes ].
  unfold init. rewrite loadNotes_saveNotes, notesOfJson_noteToJson. reflexivity.
Qed.

(* ===================================================================== *)
(** * The note factory *)
(* ===================================================================== *)

Lemma take_chars_length (n : nat) (s : string) :
  (String.length (take_chars n s) ≤ n)%nat.
Proof.
  revert s. induction n as [ | n IH ]; intros [ | c s ]; cbn; try lia.
  specialize (IH s). lia.
Qed.

(** C5.  [createNote()] returns a note titled "Untitled note" with empty
    content, whose two timestamps are the clock reading of the call, and
    whose id is the one [generateId] makes for this call: its own reading of
    the clock in base 36, a dash, and at most six characters of the random
    text. *)
Theorem createNote_default (now idTime : Z) (random36 : string) :
  let n := createNote None now idTime random36 in
  title n = "Untitled note"
  ∧ content n = EmptyString
  ∧ createdAt n = now
  ∧ updatedAt n = now
  ∧ createdAt n = updatedAt n
  ∧ id n = generateId idTime random36
  ∧ ∃ suffix, id n = toString36 idTime +:+ "-" +:+ suffix
              ∧ (String.length suffix ≤ 6)%nat.
Proof.
  cbn. repeat split. eexists. split; [ reflexivity | ]. apply take_chars_length.
Qed.

(* ===================================================================== *)
(** * The action handlers *)
(* ===================================================================== *)

Lemma findIndex_Some {A} (p : A → bool) (l : list A) (i : nat) :
  findIndex p l = Some i →
  ∃ x, l !! i = Some x ∧ p x = true
       ∧ ∀ j y, (j < i)%nat → l !! j = Some y → p y = false.
Proof.
  revert i. induction l as [ | x l IH ]; intros i; cbn [findIndex]; [ discriminate | ].
  destruct (p x) eqn:Hp.
  - intros [= <-]. exists x. repeat split; [ exact Hp | ]. intros j y Hj. lia.
  - destruct (findIndex p l) as [i' | ]; [ | discriminate ].
    intros [= <-]. destruct (IH i' eq_refl) as (y & Hy & Hpy & Hbefore).
    exists y. repeat split; [ exact Hy | exact Hpy | ].
    intros [ | j ] z Hj Hz; cbn in Hz.
    + congruence.
    + eapply Hbefore; [ | exact Hz ]. lia.
Qed.

Lemma findIndex_None {A} (p : A → bool) (l : list A) :
  findIndex p l = None ↔ ∀ x, x ∈ l → p x = false.
Proof.
  induction l as [ | x l IH ]; cbn [findIndex].
  - split; [ intros _ x Hx; inversion Hx | reflexivity ].
  - destruct (p x) eqn:Hp.
    + split; [ discriminate | ]. intros H. specialize (H x ltac:(left)). congruence.
    + destruct (findIndex p l) as [i | ].
      * split; [ discriminate | ]. intros H.
        assert (Habs : Some i = None); [ | discriminate Habs ].
        apply IH. intros y Hy. apply H. right. exact Hy.
      * split; [ | reflexivity ]. intros _ y Hy.
        apply elem_of_cons in Hy as [-> | Hy]; [ exact Hp | ].
        apply IH; [ reflexivity | exact Hy ].
Qed.

Lemma isSelected_true (sel : option string) (n : Note) :
  isSelected sel n = true ↔ sel = Some (id n).
Proof.
  destruct sel as [s | ]; cbn [isSelected]; [ | split; discriminate ].
  rewrite String.eqb_eq. split; [ intros ->; reflexivity | intros [= ->]; reflexivity ].
Qed.

(** The note that [findIndex] finds is the first one with the selected id. *)
Lemma findIndex_selected (sel : option string) (ns : list Note)
    (idx : nat) (n : Note) :
  findIndex (isSelected sel) ns = Some idx → ns !! idx = Some n →
  sel = Some (id n)
  ∧ ∀ j m, (j < idx)%nat → ns !! j = Some m → sel ≠ Some (id m).
Proof.
  intros Hidx Hn. apply findIndex_Some in Hidx as (n' & Hn' & Hsel & Hfirst).
  rewrite Hn in Hn'. injection Hn' as <-. split; [ apply isSelected_true, Hsel | ].
  intros j m Hj Hm Heq. apply isSelected_true in Heq.
  rewrite (Hfirst j m Hj Hm) in Heq. discriminate Heq.
Qed.

Lemma saveSelectedId_value (sel : option string) (ls : gmap string string) :
  saveSelectedId sel ls = <[SELECTED_KEY := default EmptyString sel]> ls.
Proof. destruct sel as [ [ | c s ] | ]; reflexivity. Qed.

Lemma storage_keys_differ : STORAGE_KEY ≠ SELECTED_KEY.
Proof. discriminate. Qed.

(** What a confirmed delete does, in the terms of the code. *)
Lemma handleDelete_unfold (confirm : string → bool) (w : World)
    (idx : nat) (n : Note) :
  findIndex (isSelected (selectedId (state w))) (notes (state w)) = Some idx →
  notes (state w) !! idx = Some n →
  handleDelete confirm w
  = if confirm (deletePrompt (promptTitle n)) then
      let ns := delete idx (notes (state w)) in
      {| state := setSelectedId (setNotes (state w) ns) (firstId ns);
         localStorage :=
           saveSelectedId (firstId ns) (saveNotes ns (localStorage w)) |}
    else w.
Proof.
  intros Hidx Hn. unfold handleDelete. rewrite Hidx, Hn. cbn zeta.
  destruct (confirm _); cbn [negb]; [ | reflexivity ].
  destruct (delete idx (notes (state w))); reflexivity.
Qed.

(** C2, as the code has it.  A confirmed delete of the selected note removes
    that note (the first one whose id is the selected id) and keeps the others
    in place; the note that is then first in the stored array becomes the
    selected one, and the selection is cleared when no note is left; the new
    collection and the new selection are both written to storage.  Deleting
    the only note leaves an empty collection and no selection. *)
Theorem handleDelete_confirmed (confirm : string → bool) (w : World)
    (idx : nat) (n : Note) :
  findIndex (isSelected (selectedId (state w))) (notes (state w)) = Some idx →
  notes (state w) !! idx = Some n →
  confirm (deletePrompt (promptTitle n)) = true →
  let w' := handleDelete confirm w in
  let ns := delete idx (notes (state w)) in
  selectedId (state w) = Some (id n)
  ∧ notes (state w') = ns
  ∧ (∀ j, (j < idx)%nat → ns !! j = notes (state w) !! j)
  ∧ (∀ j, (idx ≤ j)%nat → ns !! j = notes (state w) !! S j)
  ∧ S (length ns) = length (notes (state w))
  ∧ selectedId (state w') = firstId ns
  ∧ (ns = [] → selectedId (state w') = None)
  ∧ localStorage w' !! STORAGE_KEY
    = Some (JSON.stringify (JSON.Array (noteToJson <$> ns)))
  ∧ localStorage w' !! SELECTED_KEY = Some (default EmptyString (firstId ns))
  ∧ loadNotes (localStorage w') = Normal (noteToJson <$> ns)
  ∧ (notes (state w) = [n] →
       notes (state w') = [] ∧ selectedId (state w') = None).
Proof.
  intros Hidx Hn Hok w' ns.
  assert (Hw' : w' = {| state := setSelectedId (setNotes (state w) ns) (firstId ns);
                        localStorage :=
                          saveSelectedId (firstId ns) (saveNotes ns (localStorage w)) |}).
  { subst w'. rewrite (handleDelete_unfold confirm w idx n Hidx Hn), Hok. reflexivity. }
  assert (Hsel : localStorage w' !! SELECTED_KEY = Some (default EmptyString (firstId ns))).
  { rewrite Hw'. cbn [localStorage]. rewrite saveSelectedId_value.
    apply lookup_insert_eq. }
  assert (Hsto : localStorage w' !! STORAGE_KEY
                 = Some (JSON.stringify (JSON.Array (noteToJson <$> ns)))).
  { rewrite Hw'. cbn [localStorage]. rewrite saveSelectedId_value.
    rewrite lookup_insert_ne by (symmetry; apply storage_keys_differ).
    apply lookup_insert_eq. }
  split; [ apply (findIndex_selected _ _ _ _ Hidx Hn) | ].
  rewrite Hw'. cbn [state notes selectedId setSelectedId setNotes].
  split_and!.
  - reflexivity.
  - intros j Hj. apply list_lookup_delete_lt, Hj.
  - intros j Hj. apply list_lookup_delete_ge, Hj.
  - subst ns. rewrite length_delete by (rewrite Hn; eauto).
    apply lookup_lt_Some in Hn. lia.
  - reflexivity.
  - intros ->. reflexivity.
  - rewrite <- Hw'. exact Hsto.
  - rewrite <- Hw'. exact Hsel.
  - rewrite <- Hw', loadNotes_value, Hsto.
    rewrite JSONFacts.parse_stringify by apply notes_wf. reflexivity.
  - intros Honly. subst ns. rewrite Honly in Hn |- *.
    destruct idx; [ split; reflexivity | discriminate Hn ].
Qed.

Lemma findIndex_no_match (sel : option string) (ns : list Note) :
  findIndex (isSelected sel) ns = None ↔ ∀ n, n ∈ ns → sel ≠ Some (id n).
Proof.
  rewrite findIndex_None. split; intros H n Hn.
  - intros Heq. apply isSelected_true in Heq. rewrite (H n Hn) in Heq.
    discriminate Heq.
  - destruct (isSelected sel n) eqn:Hsel; [ | reflexivity ].
    apply isSelected_true in Hsel. destruct (H n Hn Hsel).
Qed.

(** C7.  [handleDelete] returns the world it was given, state and storage,
    when no note of the collection has the selected id, and when the user
    answers no to the prompt for the note found. *)
Theorem handleDelete_noop (confirm : string → bool) (w : World) :
  (∀ n, n ∈ notes (state w) → selectedId (state w) ≠ Some (id n))
  ∨ (∃ idx n,
       findIndex (isSelected (selectedId (state w))) (notes (state w)) = Some idx
       ∧ notes (state w) !! idx = Some n
       ∧ confirm (deletePrompt (promptTitle n)) = false) →
  handleDelete confirm w = w.
Proof.
  intros [Hnone | (idx & n & Hidx & Hn & Hno)].
  - apply findIndex_no_match in Hnone.
    unfold handleDelete. rewrite Hnone. reflexivity.
  - rewrite (handleDelete_unfold confirm w idx n Hidx Hn), Hno. reflexivity.
Qed.

(** C8.  The search box sets [query] to the text typed and changes nothing
    else: the notes, the selected id and the whole of storage are as
    before. *)
Theorem searchInput_frame (v : string) (w : World) :
  let w' := searchInput v w in
  query (state w') = v
  ∧ notes (state w') = notes (state w)
  ∧ selectedId (state w') = selectedId (state w)
  ∧ isEditingTitle (state w') = isEditingTitle (state w)
  ∧ localStorage w' = localStorage w.
Proof. repeat split. Qed.

Lemma updateSelectedNote_unfold (p : Patch) (now : Z) (w : World)
    (idx : nat) (old : Note) :
  findIndex (isSelected (selectedId (state w))) (notes (state w)) = Some idx →
  notes (state w) !! idx = Some old →
  updateSelectedNote p now w
  = let ns := <[idx := applyPatch old p now]> (notes (state w)) in
    {| state := setNotes (state w) ns;
       localStorage := saveNotes ns (localStorage w) |}.
Proof. intros Hidx Hold. unfold updateSelectedNote. rewrite Hidx, Hold. reflexivity. Qed.

(** C6, as the code has it.  With the selected id found at index [idx],
    [updateSelectedNote] replaces that note by one with the patched title and
    content, the same id and createdAt, and the clock reading as updatedAt;
    every other position of the collection, the selected id and the query are
    unchanged, and the new collection is written to storage.  The note's
    updatedAt does not decrease when the clock reading is not before its
    previous updatedAt. *)
Theorem updateSelectedNote_frame (p : Patch) (now : Z) (w : World)
    (idx : nat) (old : Note) :
  findIndex (isSelected (selectedId (state w))) (notes (state w)) = Some idx →
  notes (state w) !! idx = Some old →
  let w' := updateSelectedNote p now w in
  let new := applyPatch old p now in
  selectedId (state w) = Some (id old)
  ∧ notes (state w') !! idx = Some new
  ∧ title new = default (title old) (patchTitle p)
  ∧ content new = default (content old) (patchContent p)
  ∧ updatedAt new = now
  ∧ id new = id old
  ∧ createdAt new = createdAt old
  ∧ (updatedAt old ≤ now → updatedAt old ≤ updatedAt new)
  ∧ (∀ j, j ≠ idx → notes (state w') !! j = notes (state w) !! j)
  ∧ length (notes (state w')) = length (notes (state w))
  ∧ selectedId (state w') = selectedId (state w)
  ∧ query (state w') = query (state w)
  ∧ localStorage w' = saveNotes (notes (state w')) (localStorage w)
  ∧ loadNotes (localStorage w') = Normal (noteToJson <$> notes (state w')).
Proof.
  intros Hidx Hold w' new. subst w'.
  split; [ apply (findIndex_selected _ _ _ _ Hidx Hold) | ].
  rewrite (updateSelectedNote_unfold p now w idx old Hidx Hold).
  cbn [state notes selectedId query setNotes localStorage].
  split_and!; try reflexivity.
  - apply list_lookup_insert_eq. apply lookup_lt_Some in Hold. exact Hold.
  - intros Hclock. exact Hclock.
  - intros j Hj. apply list_lookup_insert_ne. congruence.
  - apply length_insert.
  - apply loadNotes_saveNotes.
Qed.

(* ===================================================================== *)
(** * Start-up *)
(* ===================================================================== *)

Lemma loadSelectedId_None (ls : gmap string string) :
  loadSelectedId ls = None
  ↔ ls !! SELECTED_KEY = None ∨ ls !! SELECTED_KEY = Some EmptyString.
Proof.
  unfold loadSelectedId, orElse, getItem.
  destruct (ls !! SELECTED_KEY) as [ [ | c s ] | ]; cbn; split;
    (tauto || (try discriminate)).
  intros [H | H]; discriminate H.
Qed.

(** C10.  When storage holds no selected id (the key is absent or holds the
    empty string), start-up selects the first note of the stored array and
    writes its id under the selected-id key; with an empty collection the
    selection stays absent and storage is not written. *)
Theorem startup_initial_selection (ls : gmap string string)
    (l : list JSON.value) (loaded : list Note) :
  ls !! SELECTED_KEY = None ∨ ls !! SELECTED_KEY = Some EmptyString →
  loadNotes ls = Normal l →
  notesOfJson l = Some loaded →
  ∃ w, init ls = Some w
       ∧ notes (state w) = loaded
       ∧ match loaded with
         | n0 :: _ =>
             selectedId (state w) = Some (id n0)
             ∧ localStorage w = <[SELECTED_KEY := id n0]> ls
         | [] => selectedId (state w) = None ∧ localStorage w = ls
         end.
Proof.
  intros Hsel Hload Hnotes. apply loadSelectedId_None in Hsel.
  exists (startup loaded ls). split; [ | split ].
  - unfold init. rewrite Hload, Hnotes. reflexivity.
  - apply startup_notes.
  - unfold startup. cbn [notes selectedId]. rewrite Hsel. cbn [truthyOpt negb andb].
    destruct loaded as [ | n0 rest ]; cbn; [ split; reflexivity | ].
    split; [ reflexivity | ]. apply saveSelectedId_value.
Qed.

(* ===================================================================== *)
(** * The data-model invariant *)
(* ===================================================================== *)

Lemma step_preserves_invariant (w : World) (a : Action) :
  notesInvariant (notes (state w)) → actionOk w a →
  notesInvariant (notes (state (step w a))).
Proof.
  intros [Hnd Hts] Hok. destruct a as [now idTime r | i | p now | confirm | v];
    cbn [step].
  - cbn in Hok |- *. split.
    + cbn. apply NoDup_cons. split; [ exact Hok | exact Hnd ].
    + constructor; [ cbn; lia | exact Hts ].
  - split; assumption.
  - unfold updateSelectedNote.
    destruct (findIndex _ _) as [idx | ] eqn:Hidx; [ | split; assumption ].
    apply findIndex_Some in Hidx as (old & Hold & Hsel & _).
    rewrite Hold. cbn [state notes setNotes]. split.
    + rewrite list_fmap_insert. cbn [applyPatch id].
      rewrite list_insert_id; [ exact Hnd | ].
      rewrite list_lookup_fmap, Hold. reflexivity.
    + apply Forall_insert; [ exact Hts | ]. cbn [applyPatch createdAt updatedAt].
      apply (Hok old); [ | exact Hsel ].
      apply list_elem_of_lookup. eauto.
  - unfold handleDelete.
    destruct (findIndex _ _) as [idx | ] eqn:Hidx; [ | split; assumption ].
    destruct (notes (state w) !! idx) as [n | ]; [ | split; assumption ].
    cbn zeta. destruct (confirm _); cbn [negb]; [ | split; assumption ].
    cbn [state notes setNotes setSelectedId]. split.
    + rewrite list_fmap_delete. eapply sublist_NoDup; [ exact Hnd | ].
      apply sublist_delete.
    + apply Forall_delete, Hts.
  - split; assumption.
Qed.

Lemma run_preserves_invariant (actions : list Action) :
  ∀ w, notesInvariant (notes (state w)) → actionsOk w actions →
       notesInvariant (notes (state (run w actions))).
Proof.
  induction actions as [ | a rest IH ]; intros w Hinv Hok; [ exact Hinv | ].
  destruct Hok as [Ha Hrest]. cbn [run foldl]. apply IH; [ | exact Hrest ].
  apply step_preserves_invariant; assumption.
Qed.

(** C9, as the code has it.  The code keeps the invariant but does not
    establish it: when the loaded collection has pairwise distinct ids and
    [createdAt <= updatedAt] for every note, the same holds after any
    sequence of actions in which every id made for a new note is not already
    in the collection and every update reads a clock that is not before the
    creation time of the note it stamps. *)
Theorem invariant_preserved (loaded : list Note) (ls : gmap string string)
    (actions : list Action) :
  notesInvariant loaded →
  actionsOk (startup loaded ls) actions →
  notesInvariant (notes (state (run (startup loaded ls) actions))).
Proof.
  intros Hinv Hok. apply run_preserves_invariant; [ | exact Hok ].
  rewrite startup_notes. exact Hinv.
Qed.

(* ===================================================================== *)
(** * Concrete runs *)
(* ===================================================================== *)

(** The random texts ["0.i"], ["0.9"] and ["0.r"] are those of 0.5, 0.25 and
    0.75 in base 36. *)

(** C2 as stated fails on a session from empty storage: two notes are added, the older one is
    edited, a third is added and then deleted.  The array is then
    [2-9 (updatedAt 2); 1-i (updatedAt 3)]: the code selects [2-9], the first
    of the array, while the first in sort order is [1-i]. *)
Lemma handleDelete_selects_first_stored_not_first_sorted :
  let w := run (startup [] ∅)
             [Add 1 1 "0.i"; Add 2 2 "0.9"; Select "1-i";
              Update (mkPatch (Some "x") None) 3; Add 4 4 "0.r"] in
  let w' := handleDelete (λ _, true) w in
  findIndex (isSelected (selectedId (state w))) (notes (state w)) = Some O
  ∧ id <$> notes (state w') = ["2-9"; "1-i"]
  ∧ selectedId (state w') = Some "2-9"
  ∧ firstId (getFilteredNotes (state w')) = Some "1-i"
  ∧ selectedId (state w') ≠ firstId (Array_sort byUpdatedDesc (notes (state w'))).
Proof. vm_compute. repeat split. discriminate. Qed.

(** C2 on a run: the newer of two notes is deleted, the other one is selected
    and its id is stored. *)
Lemma handleDelete_confirmed_witness :
  let w := run (startup [] ∅) [Add 1 1 "0.i"; Add 2 2 "0.9"] in
  let w' := handleDelete (λ _, true) w in
  id <$> notes (state w') = ["1-i"]
  ∧ selectedId (state w') = Some "1-i"
  ∧ localStorage w' !! SELECTED_KEY = Some "1-i".
Proof.
  intros w w'.
  pose proof (handleDelete_confirmed (λ _, true) w O
                (createNote None 2 2 "0.9") eq_refl eq_refl eq_refl) as H.
  cbv zeta in H. destruct H as (_ & H1 & _ & _ & _ & H5 & _ & _ & H8 & _).
  split; [ | split ].
  - fold w' in H1. rewrite H1. reflexivity.
  - exact H5.
  - exact H8.
Defined.

(** C6 as stated fails when the clock is set back: a note is added when the
    clock reads 10 and edited when it reads 5, and its updatedAt goes from 10
    to 5. *)
Lemma updateSelectedNote_can_decrease_updatedAt :
  let w := run (startup [] ∅) [Add 10 10 "0.i"] in
  let w' := updateSelectedNote (mkPatch (Some "x") None) 5 w in
  findIndex (isSelected (selectedId (state w))) (notes (state w)) = Some O
  ∧ updatedAt <$> notes (state w) !! O = Some 10
  ∧ updatedAt <$> notes (state w') !! O = Some 5
  ∧ ¬ (∀ old new, notes (state w) !! O = Some old →
                  notes (state w') !! O = Some new →
                  updatedAt old ≤ updatedAt new).
Proof.
  vm_compute. repeat split. intros H.
  specialize (H _ _ eq_refl eq_refl). apply H. reflexivity.
Qed.

(** C6 on a run: the content of the selected note is edited; the other note
    and the selection stay as they were. *)
Lemma updateSelectedNote_frame_witness :
  let w := run (startup [] ∅) [Add 1 1 "0.i"; Add 2 2 "0.9"; Select "1-i"] in
  let w' := updateSelectedNote (mkPatch None (Some "milk")) 7 w in
  notes (state w') !! 1%nat = Some (mkNote "1-i" "Untitled note" "milk" 1 7)
  ∧ notes (state w') !! O = notes (state w) !! O
  ∧ selectedId (state w') = Some "1-i".
Proof.
  intros w w'.
  pose proof (updateSelectedNote_frame (mkPatch None (Some "milk")) 7 w 1%nat
                (createNote None 1 1 "0.i") eq_refl eq_refl) as H.
  cbv zeta in H.
  destruct H as (_ & H1 & _ & _ & _ & _ & _ & _ & H8 & _ & H10 & _).
  split; [ exact H1 | split; [ | exact H10 ] ].
  apply H8. discriminate.
Defined.

(** C7 on a run: a delete with a dangling selection, and a delete that the
    user declines. *)
Lemma handleDelete_noop_witness :
  let w := run (startup [] ∅) [Add 1 1 "0.i"] in
  handleDelete (λ _, true) (selectNote "gone" w) = selectNote "gone" w
  ∧ handleDelete (λ _, false) w = w.
Proof.
  intros w. split.
  - apply handleDelete_noop. left. intros n Hn.
    apply elem_of_cons in Hn as [-> | Hn]; [ discriminate | inversion Hn ].
  - apply handleDelete_noop. right.
    exists O, (createNote None 1 1 "0.i"). repeat split.
Defined.

(** C9 as stated fails.  The invariant is not established by the code:
    storage may hold two notes with one id and a note created after its last
    update; two notes get one id when the clock and the random text repeat;
    and a note is stamped before its creation when the clock is set back. *)
Lemma invariant_fails_on_reachable_states :
  let dup := mkNote "a" "t" EmptyString 5 3 in
  let ls := saveNotes [dup; dup] ∅ in
  (∃ w, init ls = Some w
        ∧ notes (state w) = [dup; dup]
        ∧ ¬ NoDup (id <$> notes (state w))
        ∧ ¬ Forall (λ n, createdAt n ≤ updatedAt n) (notes (state w)))
  ∧ (∃ w, init ∅ = Some w
          ∧ ¬ NoDup (id <$> notes (state
                 (run w [Add 1 1 "0.i"; Add 1 1 "0.i"]))))
  ∧ (∃ w, init ∅ = Some w
          ∧ ¬ Forall (λ n, createdAt n ≤ updatedAt n)
                (notes (state
                   (run w [Add 10 10 "0.i";
                           Update (mkPatch (Some "x") None) 5]))))
  ∧ ¬ (∀ w, reachable w → notesInvariant (notes (state w))).
Proof.
  intros dup ls.
  assert (Hinit : init ls = Some (startup [dup; dup] ls)).
  { unfold init, ls. rewrite loadNotes_saveNotes, notesOfJson_noteToJson.
    reflexivity. }
  split; [ | split; [ | split ] ]; cycle 3.
  { intros Hall.
    destruct (Hall (startup [dup; dup] ls)) as [Hnd _].
    - exists ls, (startup [dup; dup] ls), []. split; [ exact Hinit | reflexivity ].
    - rewrite startup_notes in Hnd. cbn in Hnd.
      apply NoDup_cons in Hnd as [Hnot _]. apply Hnot. left. }
  - exists (startup [dup; dup] ls). split; [ | split; [ | split ] ].
    + exact Hinit.
    + apply startup_notes.
    + rewrite startup_notes. cbn. intros Hnd.
      apply NoDup_cons in Hnd as [Hnot _]. apply Hnot. left.
    + rewrite startup_notes. intros Hts.
      apply Forall_cons in Hts as [Hle _]. cbn in Hle. lia.
  - exists (startup [] ∅). split; [ reflexivity | ].
    vm_compute. intros Hnd. apply NoDup_cons in Hnd as [Hnot _]. apply Hnot. left.
  - exists (startup [] ∅). split; [ reflexivity | ].
    vm_compute. intros Hts. apply Forall_cons in Hts as [Hle _].
    apply Hle. reflexivity.
Qed.

(** C9 on a run with a fresh id and a clock that moves forward. *)
Lemma invariant_preserved_witness :
  notesInvariant
    (notes (state
       (run (startup [mkNote "n" "t" EmptyString 1 1] ∅)
          [Add 2 2 "0.i"; Update (mkPatch (Some "x") None) 3;
           Delete (λ _, true); Search "q"; Select "n"]))).
Proof.
  apply invariant_preserved.
  - split; [ apply (bool_decide_unpack _); reflexivity | ].
    constructor; [ cbn; lia | constructor ].
  - cbn [actionsOk actionOk]. repeat split.
    + apply (bool_decide_unpack _). reflexivity.
    + intros n Hn Hsel.
      apply elem_of_cons in Hn as [-> | Hn]; [ cbn; lia | ].
      apply elem_of_cons in Hn as [-> | Hn]; [ discriminate Hsel | ].
      inversion Hn.
Defined.

(** C10 on a storage with two notes and no selected id. *)
Lemma startup_initial_selection_witness :
  let a := mkNote "a" "first" EmptyString 1 1 in
  let b := mkNote "b" "second" EmptyString 2 2 in
  let ls := saveNotes [a; b] ∅ in
  ∃ w, init ls = Some w
       ∧ notes (state w) = [a; b]
       ∧ selectedId (state w) = Some "a"
       ∧ localStorage w = <[SELECTED_KEY := "a"]> ls.
Proof.
  intros a b ls.
  destruct (startup_initial_selection ls (noteToJson <$> [a; b]) [a; b])
    as (w & Hinit & Hnotes & Hsel & Hls).
  - left. reflexivity.
  - apply loadNotes_saveNotes.
  - reflexivity.
  - exists w. repeat split; assumption.
Defined.

(** The scenarios of the spec, by evaluation. *)

Example search_tax_shows_only_Taxes :
  title <$> getFilteredNotes
    {| notes := [mkNote "1" "Groceries" "milk" 1 1; mkNote "2" "Taxes" "april" 2 2];
       selectedId := None; query := " tAx "; isEditingTitle := false |}
  = ["Taxes"].
Proof. reflexivity. Qed.

Example search_reads_content_too :
  id <$> getFilteredNotes
    {| notes := [mkNote "1" "Groceries" "TAXI fare" 1 1;
                 mkNote "2" "Taxes" EmptyString 2 2;
                 mkNote "3" "Books" EmptyString 3 3];
       selectedId := None; query := "tax"; isEditingTitle := false |}
  = ["2"; "1"].
Proof. reflexivity. Qed.

Example empty_query_sorts_everything_and_ties_keep_their_order :
  id <$> getFilteredNotes
    {| notes := [mkNote "a" "x" "y" 1 5; mkNote "b" "x" "y" 1 9;
                 mkNote "c" "x" "y" 1 5; mkNote "d" "x" "y" 1 7];
       selectedId := None; query := "   "; isEditingTitle := false |}
  = ["b"; "d"; "a"; "c"].
Proof. reflexivity. Qed.

Example loadNotes_no_data : loadNotes ∅ = Normal [].
Proof. reflexivity. Qed.

Example loadNotes_malformed :
  loadNotes {[ STORAGE_KEY := "[1, 2" ]} = Normal [].
Proof. vm_compute. reflexivity. Qed.

Example loadNotes_not_an_array :
  loadNotes {[ STORAGE_KEY := "{ }" ]} = Normal [].
Proof. vm_compute. reflexivity. Qed.

Example loadNotes_any_array :
  loadNotes {[ STORAGE_KEY := " [1, null, [true]] " ]}
  = Normal [JSON.Number 1; JSON.Null; JSON.Array [JSON.Bool true]].
Proof. vm_compute. reflexivity. Qed.

Example stringify_parse_escapes :
  let v := JSON.Array
    [JSON.Str (String JSON.dquote (String JSON.backslash (String "010" "é/")));
     JSON.Number (-1700000000000); JSON.Object [("k", JSON.Null)]] in
  JSON.parse (JSON.stringify v) = Some v.
Proof. vm_compute. reflexivity. Qed.

Example add_then_delete_only_note :
  let w := handleDelete (λ _, true)
             (handleAddNote 1700000000000 1700000000001 "0.4fzyo82mvyr"
                (startup [] ∅)) in
  notes (state w) = [] ∧ selectedId (state w) = None
  ∧ loadNotes (localStorage w) = Normal []
  ∧ loadSelectedId (localStorage w) = None.
Proof. vm_compute. repeat split. Qed.

Example added_note_is_first_and_selected :
  let w := handleAddNote 1700000000000 1700000000001 "0.4fzyo82mvyr"
             (startup [mkNote "old" "t" "c" 1 1] (<[SELECTED_KEY := "old"]> ∅)) in
  notes (state w)
  = [mkNote "loyw3v29-4fzyo8" "Untitled note" EmptyString
       1700000000000 1700000000000;
     mkNote "old" "t" "c" 1 1]
  ∧ selectedId (state w) = Some "loyw3v29-4fzyo8".
Proof. vm_compute. repeat split. Qed.

(* ===================================================================== *)
(** * The view helpers *)
(* ===================================================================== *)

Lemma escapeHtml_cons (a : ascii) (s : string) :
  escapeHtml (Some (String a s)) = escapeChar a +:+ escapeHtml (Some s).
Proof. each_char a; reflexivity. Qed.

Lemma hasMarkup_app (s t : string) :
  hasMarkup (s +:+ t) = hasMarkup s || hasMarkup t.
Proof.
  induction s as [ | c s IH ]; [ reflexivity | ].
  rewrite append_cons. cbn [hasMarkup]. rewrite IH, orb_assoc. reflexivity.
Qed.

Lemma hasMarkup_escapeChar (c : ascii) : hasMarkup (escapeChar c) = false.
Proof. each_char c; reflexivity. Qed.

Lemma hasMarkup_take_chars (n : nat) (s : string) :
  hasMarkup s = false → hasMarkup (take_chars n s) = false.
Proof.
  revert s. induction n as [ | n IH ]; intros [ | c s ]; try reflexivity.
  cbn [hasMarkup take_chars]. intros H. apply orb_false_iff in H as [Hc Hs].
  rewrite Hc, (IH s Hs). reflexivity.
Qed.

Lemma escapeHtml_no_markup (str : option string) :
  hasMarkup (escapeHtml str) = false.
Proof.
  destruct str as [s | ]; [ | reflexivity ].
  induction s as [ | c s IH ]; [ reflexivity | ].
  rewrite escapeHtml_cons, hasMarkup_app, hasMarkup_escapeChar, IH. reflexivity.
Qed.

(** What [escapeChar] yields: the character itself, or one of five
    entities. *)
Lemma escapeChar_cases (c : ascii) :
  (escapeChar c = String c EmptyString ∧ Ascii.eqb c "&" = false)
  ∨ (c = "&"%char ∧ escapeChar c = "&amp;")
  ∨ (c = "<"%char ∧ escapeChar c = "&lt;")
  ∨ (c = ">"%char ∧ escapeChar c = "&gt;")
  ∨ (c = JSON.dquote ∧ escapeChar c = "&quot;")
  ∨ (c = "'"%char ∧ escapeChar c = "&#39;").
Proof.
  each_char c;
    first [ left; split; reflexivity
          | right; left; split; reflexivity
          | right; right; left; split; reflexivity
          | right; right; right; left; split; reflexivity
          | right; right; right; right; left; split; reflexivity
          | right; right; right; right; right; split; reflexivity ].
Qed.

Lemma escapeChar_prefix_inj (a b : ascii) (x y : string) :
  escapeChar a +:+ x = escapeChar b +:+ y → a = b ∧ x = y.
Proof.
  destruct (escapeChar_cases a) as [[Ha Na] | [[-> Ha] | [[-> Ha] | [[-> Ha] | [[-> Ha] | [-> Ha]]]]]];
    destruct (escapeChar_cases b) as [[Hb Nb] | [[-> Hb] | [[-> Hb] | [[-> Hb] | [[-> Hb] | [-> Hb]]]]]];
    intros H; rewrite ?Ha, ?Hb in H; cbv [String.append] in H;
    first [ discriminate H
          | injection H; intros; subst; first [ split; reflexivity | easy ] ].
Qed.

Lemma escapeHtml_inj (s t : string) :
  escapeHtml (Some s) = escapeHtml (Some t) → s = t.
Proof.
  revert t. induction s as [ | a s IH ]; intros [ | b t ] H.
  - reflexivity.
  - rewrite escapeHtml_cons in H. change (escapeHtml (Some EmptyString)) with EmptyString in H.
    destruct (escapeChar_cases b) as [[Hb _] | [[_ Hb] | [[_ Hb] | [[_ Hb] | [[_ Hb] | [_ Hb]]]]]];
      rewrite Hb in H; discriminate H.
  - rewrite escapeHtml_cons in H. change (escapeHtml (Some EmptyString)) with EmptyString in H.
    destruct (escapeChar_cases a) as [[Ha _] | [[_ Ha] | [[_ Ha] | [[_ Ha] | [[_ Ha] | [_ Ha]]]]]];
      rewrite Ha in H; discriminate H.
  - rewrite !escapeHtml_cons in H. apply escapeChar_prefix_inj in H as [-> H].
    f_equal. apply IH, H.
Qed.

(** X1.  The five replacements of [escapeHtml], run one after the other,
    amount to one pass that replaces each of the five special characters by
    its entity: the ampersands of the entities written by later replacements
    are not escaped again.  [null] and [undefined] give the empty string. *)
Theorem escapeHtml_one_pass (s : string) :
  escapeHtml (Some s) = escapeOnePass s ∧ escapeHtml None = EmptyString.
Proof.
  split; [ | reflexivity ].
  induction s as [ | c s IH ]; [ reflexivity | ].
  rewrite escapeHtml_cons, IH. reflexivity.
Qed.

(** X2.  The text that [escapeHtml] returns contains no [<], no [>], no
    double quote and no single quote. *)
Theorem escapeHtml_output_has_no_markup (str : option string) :
  hasMarkup (escapeHtml str) = false
  ∧ includes (escapeHtml str) "<" = false
  ∧ includes (escapeHtml str) ">" = false
  ∧ includes (escapeHtml str) "'" = false
  ∧ includes (escapeHtml str) (String JSON.dquote EmptyString) = false.
Proof.
  pose proof (escapeHtml_no_markup str) as H.
  assert (Hinc : ∀ (c : ascii) (s : string),
            isMarkup c = true → hasMarkup s = false →
            includes s (String c EmptyString) = false).
  { intros c s Hc. induction s as [ | a s IH ]; [ reflexivity | ].
    cbn [hasMarkup includes startsWith]. intros Hs.
    apply orb_false_iff in Hs as [Ha Hs]. rewrite (IH Hs), orb_false_r.
    destruct (Ascii.eqb_spec c a) as [-> | _]; [ congruence | reflexivity ]. }
  split; [ exact H | ]. repeat split; apply Hinc; (reflexivity || exact H).
Qed.

(** X3.  [escapeHtml] loses nothing: two texts with the same escaped form are
    the same text. *)
Theorem escapeHtml_injective (s t : string) :
  escapeHtml (Some s) = escapeHtml (Some t) ↔ s = t.
Proof. split; [ apply escapeHtml_inj | intros ->; reflexivity ]. Qed.

(** X4.  The title and the preview that [renderNoteItems] puts in a sidebar
    item contain no [<], [>] or quote, whatever the note holds, and the
    preview has at most 80 characters. *)
Theorem sidebar_item_text_is_safe (n : Note) :
  hasMarkup (itemTitle n) = false
  ∧ hasMarkup (itemPreview n) = false
  ∧ (String.length (itemPreview n) ≤ 80)%nat.
Proof.
  split; [ apply escapeHtml_no_markup | ].
  unfold itemPreview, slice. destruct (truthy (content n)).
  - split; [ apply hasMarkup_take_chars, escapeHtml_no_markup | ].
    apply take_chars_length.
  - split; [ reflexivity | cbn; lia ].
Qed.

(* ===================================================================== *)
(** * Identifiers *)
(* ===================================================================== *)

Lemma digit36_spec (d : Z) : 0 ≤ d < 36 → digit36Val (digit36 d) = Some d.
Proof.
  intros Hd. assert (Hn : d = Z.of_nat (Z.to_nat d)) by lia.
  rewrite Hn. assert (Hlt : (Z.to_nat d < 36)%nat) by lia.
  generalize dependent (Z.to_nat d). intros k _ Hk.
  do 36 (destruct k as [ | k ]; [ reflexivity | ]). lia.
Qed.

Lemma readDigits36_toString36_pos (fuel : nat) :
  ∀ (n : Z) (k : string),
    0 ≤ n < 2 ^ Z.of_nat fuel →
    readDigits36 0 (toString36_pos fuel n k) = readDigits36 n k.
Proof.
  induction fuel as [ | fuel IH ]; intros n k Hn.
  - cbn in Hn. assert (n = 0) by lia. subst n. reflexivity.
  - cbn [toString36_pos]. destruct (Z.ltb_spec n 36) as [Hlt | Hge].
    + cbn [readDigits36]. rewrite digit36_spec by (apply Z.mod_pos_bound; lia).
      f_equal. rewrite Z.mod_small by lia. lia.
    + rewrite IH.
      * cbn [readDigits36]. rewrite digit36_spec by (apply Z.mod_pos_bound; lia).
        f_equal. pose proof (Z.div_mod n 36). lia.
      * rewrite Nat2Z.inj_succ, Z.pow_succ_r in Hn by lia.
        split; [ apply Z.div_pos; lia | ].
        apply Z.div_lt_upper_bound; lia.
Qed.

Lemma toString36_pos_app (fuel : nat) :
  ∀ (n : Z) (acc k : string),
    toString36_pos fuel n acc +:+ k = toString36_pos fuel n (acc +:+ k).
Proof.
  induction fuel as [ | fuel IH ]; intros n acc k; [ reflexivity | ].
  cbn [toString36_pos]. destruct (n <? 36); [ reflexivity | ].
  rewrite IH. reflexivity.
Qed.

(** The clock reading and the random suffix can be read back from an id. *)
Lemma readDigits36_generateId (t : Z) (r : string) :
  0 ≤ t →
  readDigits36 0 (generateId t r) = (t, "-" +:+ slice r 2 8).
Proof.
  intros Ht. unfold generateId, toString36.
  destruct (Z.ltb_spec t 0) as [Hneg | _]; [ lia | ].
  rewrite Z.abs_eq by lia. rewrite toString36_pos_app, append_nil.
  rewrite readDigits36_toString36_pos.
  - reflexivity.
  - split; [ exact Ht | apply JSONFacts.fuel_enough, Ht ].
Qed.

(** X5.  Two ids made by [generateId] at clock readings that are not
    negative are equal exactly when the clock readings are equal and the
    random texts agree on the characters kept, those at positions 2 to 7:
    ids of different milliseconds differ. *)
Theorem generateId_equal_iff (t1 t2 : Z) (r1 r2 : string) :
  0 ≤ t1 → 0 ≤ t2 →
  (generateId t1 r1 = generateId t2 r2
   ↔ t1 = t2 ∧ slice r1 2 8 = slice r2 2 8).
Proof.
  intros H1 H2. split.
  - intros Heq. pose proof (readDigits36_generateId t1 r1 H1) as E1.
    rewrite Heq, (readDigits36_generateId t2 r2 H2) in E1.
    injection E1 as -> E. split; [ reflexivity | ].
    symmetry. exact E.
  - intros [-> Hs]. unfold generateId. rewrite Hs. reflexivity.
Qed.

(* ===================================================================== *)
(** * Storage and state *)
(* ===================================================================== *)

Lemma loadNotes_insert_other (key v : string) (ls : gmap string string) :
  key ≠ STORAGE_KEY → loadNotes (<[key := v]> ls) = loadNotes ls.
Proof.
  intros Hne. rewrite !loadNotes_value, lookup_insert_ne by exact Hne.
  reflexivity.
Qed.

Lemma loadNotes_saveSelectedId (sel : option string) (ls : gmap string string) :
  loadNotes (saveSelectedId sel ls) = loadNotes ls.
Proof.
  rewrite saveSelectedId_value. apply loadNotes_insert_other.
  intros H. symmetry in H. apply storage_keys_differ, H.
Qed.

Lemma loadSelectedId_saveNotes (ns : list Note) (ls : gmap string string) :
  loadSelectedId (saveNotes ns ls) = loadSelectedId ls.
Proof.
  unfold loadSelectedId, saveNotes, setItem, getItem.
  rewrite lookup_insert_ne by apply storage_keys_differ. reflexivity.
Qed.

Lemma loadSelectedId_saveSelectedId (sel : option string)
    (ls : gmap string string) :
  loadSelectedId (saveSelectedId sel ls) = orElse sel None.
Proof.
  rewrite saveSelectedId_value. unfold loadSelectedId, getItem.
  rewrite lookup_insert_eq. destruct sel as [ [ | c s ] | ]; reflexivity.
Qed.

(** X6.  The two stored values do not disturb each other and the selected id
    reads back: after [saveSelectedId(id)], [loadSelectedId()] returns [id]
    when it is a non-empty string and [null] when it is [null] or empty, and
    [loadNotes()] returns what it returned before; after [saveNotes(notes)],
    [loadSelectedId()] returns what it returned before. *)
Theorem selected_id_roundtrip_and_key_independence
    (sel : option string) (ns : list Note) (ls : gmap string string) :
  loadSelectedId (saveSelectedId sel ls)
  = (if truthyOpt sel then sel else None)
  ∧ loadNotes (saveSelectedId sel ls) = loadNotes ls
  ∧ loadSelectedId (saveNotes ns ls) = loadSelectedId ls.
Proof.
  split; [ apply loadSelectedId_saveSelectedId | ].
  split; [ apply loadNotes_saveSelectedId | apply loadSelectedId_saveNotes ].
Qed.










(* ===================================================================== *)
(** * More on the action handlers *)
(* ===================================================================== *)

Lemma updateSelectedNote_no_match (p : Patch) (now : Z) (w : World) :
  findIndex (isSelected (selectedId (state w))) (notes (state w)) = None →
  updateSelectedNote p now w = w.
Proof. intros H. unfold updateSelectedNote. rewrite H. reflexivity. Qed.

(** X9.  [updateSelectedNote] returns the world it was given, state and
    storage, when no note of the collection has the selected id: nothing is
    stamped and nothing is written. *)
Theorem updateSelectedNote_noop (p : Patch) (now : Z) (w : World) :
  (∀ n, n ∈ notes (state w) → selectedId (state w) ≠ Some (id n)) →
  updateSelectedNote p now w = w.
Proof.
  intros H. apply updateSelectedNote_no_match, findIndex_no_match, H.
Qed.

Lemma findIndex_insert_same {A} (p : A → bool) (l : list A) (i : nat) (x y : A) :
  l !! i = Some x → p y = p x → findIndex p (<[i := y]> l) = findIndex p l.
Proof.
  revert i. induction l as [ | a l IH ]; intros [ | i ] Hx Hp; try discriminate Hx.
  - injection Hx as ->. cbn. rewrite Hp. reflexivity.
  - change (l !! i = Some x) in Hx.
    change (<[S i := y]> (a :: l)) with (a :: <[i := y]> l).
    cbn [findIndex]. rewrite (IH i Hx Hp). reflexivity.
Qed.

Lemma applyPatch_twice (n : Note) (p1 p2 : Patch) (t1 t2 : Z) :
  applyPatch (applyPatch n p1 t1) p2 t2 = applyPatch n (mergePatch p1 p2) t2.
Proof.
  destruct p1 as [[a | ] [b | ]], p2 as [[c | ] [d | ]]; reflexivity.
Qed.

(** X10.  Two edits in a row amount to one edit with the merged patch at the
    time of the second: the state and the storage after
    [updateSelectedNote(p1)] and then [updateSelectedNote(p2)] are those
    after one [updateSelectedNote({...p1, ...p2})] at the second clock
    reading.  Only the last write of a burst of keystrokes counts. *)
Theorem updateSelectedNote_twice (p1 p2 : Patch) (t1 t2 : Z) (w : World) :
  updateSelectedNote p2 t2 (updateSelectedNote p1 t1 w)
  = updateSelectedNote (mergePatch p1 p2) t2 w.
Proof.
  destruct (findIndex (isSelected (selectedId (state w))) (notes (state w)))
    as [idx | ] eqn:Hidx.
  - destruct (findIndex_Some _ _ _ Hidx) as (old & Hold & _ & _).
    rewrite (updateSelectedNote_unfold p1 t1 w idx old Hidx Hold).
    rewrite (updateSelectedNote_unfold (mergePatch p1 p2) t2 w idx old Hidx Hold).
    cbv zeta.
    erewrite updateSelectedNote_unfold.
    + cbv zeta. cbn [state notes selectedId setNotes localStorage query
                       isEditingTitle].
      rewrite list_insert_insert_eq, applyPatch_twice.
      unfold saveNotes, setItem. rewrite insert_insert_eq. reflexivity.
    + cbn [state notes selectedId setNotes].
      rewrite (findIndex_insert_same _ _ idx old); [ exact Hidx | exact Hold | reflexivity ].
    + cbn [state notes setNotes]. apply list_lookup_insert_eq.
      apply lookup_lt_Some in Hold. exact Hold.
  - rewrite (updateSelectedNote_no_match p1 t1 w Hidx).
    rewrite (updateSelectedNote_no_match p2 t2 w Hidx).
    rewrite (updateSelectedNote_no_match _ t2 w Hidx). reflexivity.
Qed.

Lemma handleAddNote_selected_first (now idTime : Z) (r : string) (w : World) :
  let w1 := handleAddNote now idTime r w in
  findIndex (isSelected (selectedId (state w1))) (notes (state w1)) = Some O
  ∧ notes (state w1) !! O = Some (createNote None now idTime r).
Proof.
  cbn. rewrite String.eqb_refl. split; reflexivity.
Qed.

(** X11.  Adding a note and deleting it at once, with the prompt for
    "Untitled note" confirmed, gives back the collection as it was, in state
    and in storage.  The selection does not come back: it moves to the first
    note of the array, whichever note was selected before. *)
Theorem add_then_delete_restores_notes (confirm : string → bool)
    (now idTime : Z) (r : string) (w : World) :
  confirm (deletePrompt "Untitled note") = true →
  let w2 := handleDelete confirm (handleAddNote now idTime r w) in
  notes (state w2) = notes (state w)
  ∧ selectedId (state w2) = firstId (notes (state w))
  ∧ query (state w2) = query (state w)
  ∧ loadNotes (localStorage w2) = Normal (noteToJson <$> notes (state w)).
Proof.
  intros Hyes w2. subst w2.
  destruct (handleAddNote_selected_first now idTime r w) as [Hidx Hn].
  cbv zeta in Hidx, Hn.
  rewrite (handleDelete_unfold confirm _ O _ Hidx Hn).
  change (promptTitle (createNote None now idTime r)) with "Untitled note".
  rewrite Hyes. cbn [handleAddNote state notes selectedId query setNotes
                       setSelectedId localStorage delete].
  split_and!; try reflexivity.
  rewrite loadNotes_saveSelectedId. apply loadNotes_saveNotes.
Qed.

Lemma Array_find_findIndex {A} (p : A → bool) (l : list A) :
  Array_find p l = findIndex p l ≫= (l !!.).
Proof.
  induction l as [ | x l IH ]; [ reflexivity | ].
  cbn [Array_find findIndex]. destruct (p x); [ reflexivity | ].
  rewrite IH. destruct (findIndex p l); reflexivity.
Qed.

(** X12.  The note that the main panel shows and [handleCopy] copies is the
    note that [updateSelectedNote] and [handleDelete] act on, the first one
    with the selected id; and after an edit the panel shows the edited
    note. *)
Theorem shownNote_is_the_note_edited (p : Patch) (now : Z) (w : World) :
  shownNote (state w)
  = findIndex (isSelected (selectedId (state w))) (notes (state w))
      ≫= (notes (state w) !!.)
  ∧ shownNote (state (updateSelectedNote p now w))
    = (λ old, applyPatch old p now) <$> shownNote (state w)
  ∧ handleCopy (updateSelectedNote p now w)
    = (λ old, copyText (applyPatch old p now)) <$> shownNote (state w).
Proof.
  assert (Hshown : ∀ st, shownNote st
            = findIndex (isSelected (selectedId st)) (notes st) ≫= (notes st !!.)).
  { intros st. apply Array_find_findIndex. }
  assert (Hafter : shownNote (state (updateSelectedNote p now w))
                   = (λ old, applyPatch old p now) <$> shownNote (state w)).
  { rewrite !Hshown.
    destruct (findIndex (isSelected (selectedId (state w))) (notes (state w)))
      as [idx | ] eqn:Hidx.
    - destruct (findIndex_Some _ _ _ Hidx) as (old & Hold & _ & _).
      rewrite (updateSelectedNote_unfold p now w idx old Hidx Hold).
      cbv zeta. cbn [state notes selectedId setNotes].
      rewrite (findIndex_insert_same _ _ idx old); [ | exact Hold | reflexivity ].
      rewrite Hidx. cbn [mbind option_bind]. rewrite Hold.
      apply list_lookup_insert_eq. apply lookup_lt_Some in Hold. exact Hold.
    - rewrite (updateSelectedNote_no_match p now w Hidx), Hidx. reflexivity. }
  split; [ apply Hshown | ]. split; [ exact Hafter | ].
  unfold handleCopy. rewrite Hafter. destruct (shownNote (state w)); reflexivity.
Qed.

(** X13.  After [handleAddNote] the main panel shows the new note.  After a
    confirmed delete it shows the first note left in the array, and the
    welcome placeholder when none is left. *)
Theorem shownNote_after_add_and_delete (confirm : string → bool)
    (now idTime : Z) (r : string) (w : World) (idx : nat) (n : Note) :
  findIndex (isSelected (selectedId (state w))) (notes (state w)) = Some idx →
  notes (state w) !! idx = Some n →
  confirm (deletePrompt (promptTitle n)) = true →
  shownNote (state (handleAddNote now idTime r w))
  = Some (createNote None now idTime r)
  ∧ shownNote (state (handleDelete confirm w))
    = head (delete idx (notes (state w))).
Proof.
  intros Hidx Hn Hyes. split.
  - cbn. rewrite String.eqb_refl. reflexivity.
  - rewrite (handleDelete_unfold confirm w idx n Hidx Hn), Hyes.
    cbv zeta. unfold shownNote. cbn [state notes selectedId setNotes setSelectedId].
    destruct (delete idx (notes (state w))) as [ | m rest ]; [ reflexivity | ].
    cbn. rewrite String.eqb_refl. reflexivity.
Qed.

Lemma elem_of_list_insert_inv {A} (l : list A) (i : nat) (x y : A) :
  y ∈ <[i := x]> l → y = x ∨ y ∈ l.
Proof.
  intros Hy. apply list_elem_of_lookup in Hy as [j Hj].
  apply list_lookup_insert_Some in Hj as [(_ & -> & _) | (_ & Hj)].
  - left. reflexivity.
  - right. apply list_elem_of_lookup. eauto.
Qed.

(** X14.  No handler changes the id or the creation time of a note: every
    note of the collection after an action is the note just made by
    [createNote] in an Add, or has the id and the createdAt of a note that
    was in the collection before. *)
Theorem step_keeps_id_and_createdAt (w : World) (a : Action) (n' : Note) :
  n' ∈ notes (state (step w a)) →
  (∃ n, n ∈ notes (state w) ∧ id n = id n' ∧ createdAt n = createdAt n')
  ∨ (∃ now idTime r, a = Add now idTime r ∧ n' = createNote None now idTime r).
Proof.
  intros Hin. destruct a as [now idTime r | i | p now | confirm | v];
    cbn [step] in Hin.
  - cbn in Hin. apply elem_of_cons in Hin as [-> | Hin].
    + right. eauto.
    + left. eauto.
  - left. eauto.
  - left. unfold updateSelectedNote in Hin.
    destruct (findIndex _ _) as [idx | ]; [ | eauto ].
    destruct (notes (state w) !! idx) as [old | ] eqn:Hold; [ | eauto ].
    cbn [state notes setNotes] in Hin.
    apply elem_of_list_insert_inv in Hin as [-> | Hin]; [ | eauto ].
    exists old. split; [ apply list_elem_of_lookup; eauto | split; reflexivity ].
  - left. unfold handleDelete in Hin.
    destruct (findIndex _ _) as [idx | ]; [ | eauto ].
    destruct (notes (state w) !! idx) as [n | ]; [ | eauto ].
    cbn zeta in Hin. destruct (confirm _); cbn [negb] in Hin; [ | eauto ].
    cbn [state notes setNotes setSelectedId] in Hin.
    apply list_elem_of_delete_inv in Hin. eauto.
  - left. eauto.
Qed.

Lemma append_assoc (a b c : string) : (a +:+ b) +:+ c = a +:+ (b +:+ c).
Proof.
  induction a as [ | x a IH ]; [ reflexivity | ].
  rewrite !append_cons, IH. reflexivity.
Qed.

Lemma substring_of_trans (a b c : string) :
  substring_of a b → substring_of b c → substring_of a c.
Proof.
  intros (p1 & s1 & ->) (p2 & s2 & ->).
  exists (p2 +:+ p1), (s1 +:+ s2). rewrite !append_assoc. reflexivity.
Qed.

Lemma substring_of_empty (q : string) :
  substring_of q EmptyString → q = EmptyString.
Proof.
  intros (pre & post & H). destruct pre; [ | discriminate H ].
  destruct q; [ reflexivity | discriminate H ].
Qed.

Lemma filter_sublist_of_filter {A} (f g : A → bool) (l : list A) :
  (∀ x, f x = true → g x = true) →
  List.filter f l `sublist_of` List.filter g l.
Proof.
  intros Hfg. induction l as [ | x l IH ]; [ constructor | ].
  cbn [List.filter]. destruct (f x) eqn:Hf.
  - rewrite (Hfg x Hf). apply sublist_skip, IH.
  - destruct (g x); [ apply sublist_cons, IH | exact IH ].
Qed.

Lemma getFilteredNotes_filter (st : State) :
  getFilteredNotes st
  = List.filter (retains (toLowerCase (trim (query st))))
      (Array_sort byUpdatedDesc (notes st)).
Proof.
  unfold getFilteredNotes.
  destruct (truthy (toLowerCase (trim (query st)))) eqn:Hq; cbn [negb].
  - apply filter_ext. intros n. apply matchesQuery_retains, Hq.
  - symmetry. apply forallb_filter_id, forallb_forall. intros n _.
    unfold retains. rewrite Hq. reflexivity.
Qed.

(** X15.  A longer query narrows the list: when the trimmed, case-folded
    query [q1] occurs in the trimmed, case-folded query [q2], the notes
    listed for [q2] are among the notes listed for [q1], in the same
    order. *)
Theorem longer_query_narrows (st : State) (q1 q2 : string) :
  substring_of (toLowerCase (trim q1)) (toLowerCase (trim q2)) →
  getFilteredNotes (setQuery st q2) `sublist_of` getFilteredNotes (setQuery st q1).
Proof.
  intros Hsub. rewrite !getFilteredNotes_filter. cbn [setQuery notes query].
  apply filter_sublist_of_filter. intros n Hn.
  apply retains_spec. apply retains_spec in Hn.
  destruct Hn as [Hempty | [Ht | Hc]].
  - left. rewrite Hempty in Hsub. apply substring_of_empty, Hsub.
  - right. left. exact (substring_of_trans _ _ _ Hsub Ht).
  - right. right. exact (substring_of_trans _ _ _ Hsub Hc).
Qed.

(** X16.  Start-up keeps a stored selected id as it is: when storage holds a
    non-empty selected id, that id is the selection whether or not a note of
    the collection has it, and start-up writes nothing.  With an id that no
    note has, the main panel shows the welcome placeholder. *)
Theorem startup_keeps_stored_selection (loaded : list Note)
    (ls : gmap string string) (s : string) :
  ls !! SELECTED_KEY = Some s → truthy s = true →
  startup loaded ls
  = {| state := {| notes := loaded; selectedId := Some s;
                   query := EmptyString; isEditingTitle := false |};
       localStorage := ls |}
  ∧ ((∀ n, n ∈ loaded → id n ≠ s) →
     shownNote (state (startup loaded ls)) = None).
Proof.
  intros Hs Ht.
  assert (Hstart : startup loaded ls
            = {| state := {| notes := loaded; selectedId := Some s;
                             query := EmptyString; isEditingTitle := false |};
                 localStorage := ls |}).
  { unfold startup, loadSelectedId, orElse, getItem. rewrite Hs.
    cbn [truthyOpt]. rewrite Ht. cbn [notes selectedId truthyOpt].
    rewrite Ht. reflexivity. }
  split; [ exact Hstart | ]. intros Hnone. rewrite Hstart.
  unfold shownNote. cbn [state notes selectedId].
  rewrite Array_find_findIndex.
  assert (Hidx : findIndex (isSelected (Some s)) loaded = None).
  { apply findIndex_no_match. intros n Hn [= Heq]. exact (Hnone n Hn (eq_sym Heq)). }
  rewrite Hidx. reflexivity.
Qed.

Lemma sort_insert_head {A} (key : A → Z) (x : A) (l : list A) :
  Forall (λ y, key y ≤ key x) l →
  sort_insert (descendingBy key) x l = x :: l.
Proof.
  intros H. destruct H as [ | y l Hy _ ]; [ reflexivity | ].
  cbn [sort_insert]. unfold descendingBy.
  destruct (Z.leb_spec (key y - key x) 0); [ reflexivity | lia ].
Qed.

(** X17.  A note added when the clock is not behind any updatedAt of the
    collection is the first of the list shown, provided the query in force
    retains it (an empty query does); and it is the selected note. *)
Theorem added_note_is_first_in_list (now idTime : Z) (r : string) (w : World) :
  Forall (λ n, updatedAt n ≤ now) (notes (state w)) →
  retains (toLowerCase (trim (query (state w))))
    (createNote None now idTime r) = true →
  let w' := handleAddNote now idTime r w in
  head (getFilteredNotes (state w')) = Some (createNote None now idTime r)
  ∧ selectedId (state w') = Some (id (createNote None now idTime r)).
Proof.
  intros Hclock Hkeep w'. split; [ | reflexivity ].
  rewrite getFilteredNotes_filter. subst w'.
  cbn [handleAddNote state notes query setNotes setSelectedId Array_sort foldr].
  fold (Array_sort byUpdatedDesc (notes (state w))).
  rewrite (sort_insert_head updatedAt).
  - cbn [List.filter]. rewrite Hkeep. reflexivity.
  - rewrite (Array_sort_Permutation updatedAt). exact Hclock.
Qed.

(** X18.  When the ids of the collection are pairwise distinct, a confirmed
    delete leaves no note with the deleted id, and the main panel no longer
    shows the deleted note. *)
Theorem handleDelete_removes_the_id (confirm : string → bool) (w : World)
    (idx : nat) (n : Note) :
  NoDup (id <$> notes (state w)) →
  findIndex (isSelected (selectedId (state w))) (notes (state w)) = Some idx →
  notes (state w) !! idx = Some n →
  confirm (deletePrompt (promptTitle n)) = true →
  (id n ∉ id <$> notes (state (handleDelete confirm w)))
  ∧ shownNote (state (handleDelete confirm w)) ≠ Some n.
Proof.
  intros Hnd Hidx Hn Hyes.
  assert (Hgone : id n ∉ id <$> notes (state (handleDelete confirm w))).
  { rewrite (handleDelete_unfold confirm w idx n Hidx Hn), Hyes.
    cbv zeta. cbn [state notes setNotes setSelectedId].
    rewrite list_fmap_delete. intros Hin.
    apply list_elem_of_lookup in Hin as [j Hj].
    rewrite list_lookup_delete in Hj.
    assert (Hi : (id <$> notes (state w)) !! idx = Some (id n))
      by (rewrite list_lookup_fmap, Hn; reflexivity).
    pose proof (NoDup_lookup _ _ _ _ Hnd Hi Hj) as Heq.
    case_decide; lia. }
  split; [ exact Hgone | ]. intros Hshown. apply Hgone.
  unfold shownNote in Hshown. rewrite Array_find_findIndex in Hshown.
  destruct (findIndex _ (notes (state (handleDelete confirm w)))) as [j | ];
    cbn [mbind option_bind] in Hshown; [ | discriminate Hshown ].
  apply list_elem_of_lookup. exists j. rewrite list_lookup_fmap, Hshown.
  reflexivity.
Qed.

Lemma findIndex_NoDup_id (ns : list Note) (n : Note) :
  NoDup (id <$> ns) → n ∈ ns →
  Array_find (isSelected (Some (id n))) ns = Some n.
Proof.
  intros Hnd Hin. rewrite Array_find_findIndex.
  apply list_elem_of_lookup in Hin as [i Hi].
  destruct (findIndex (isSelected (Some (id n))) ns) as [j | ] eqn:Hj.
  - destruct (findIndex_Some _ _ _ Hj) as (m & Hm & Hsel & _).
    cbn [mbind option_bind]. rewrite Hm. f_equal.
    apply isSelected_true in Hsel. injection Hsel as Hid.
    assert (Hij : i = j).
    { apply (NoDup_lookup _ _ _ (id n) Hnd).
      - rewrite list_lookup_fmap, Hi. reflexivity.
      - rewrite list_lookup_fmap, Hm, Hid. reflexivity. }
    subst j. congruence.
  - exfalso. pose proof (proj1 (findIndex_no_match _ _) Hj) as Hnone.
    apply (Hnone n); [ apply list_elem_of_lookup; eauto | reflexivity ].
Qed.

(** X19.  Selecting the id of a note of the collection, when ids are
    pairwise distinct, makes the main panel show that note; the collection
    and the stored array are not touched, and the id is what
    [loadSelectedId()] returns next, unless it is empty. *)
Theorem selectNote_shows_the_note (w : World) (n : Note) :
  NoDup (id <$> notes (state w)) →
  n ∈ notes (state w) →
  let w' := selectNote (id n) w in
  shownNote (state w') = Some n
  ∧ notes (state w') = notes (state w)
  ∧ localStorage w' !! STORAGE_KEY = localStorage w !! STORAGE_KEY
  ∧ loadSelectedId (localStorage w')
    = (if truthy (id n) then Some (id n) else None).
Proof.
  intros Hnd Hin w'. split; [ exact (findIndex_NoDup_id _ n Hnd Hin) | ].
  split; [ reflexivity | ]. split.
  - subst w'. cbn [selectNote localStorage]. rewrite saveSelectedId_value.
    apply lookup_insert_ne. intros H. symmetry in H.
    exact (storage_keys_differ H).
  - subst w'. cbn [selectNote localStorage].
    apply loadSelectedId_saveSelectedId.
Qed.

(* ===================================================================== *)
(** * Further concrete runs *)
(* ===================================================================== *)

(** X5 on two ids made one millisecond apart with the same random text. *)
Lemma generateId_equal_iff_witness :
  generateId 1700000000000 "0.i" ≠ generateId 1700000000001 "0.i".
Proof.
  intros H.
  apply (generateId_equal_iff 1700000000000 1700000000001 "0.i" "0.i") in H.
  - destruct H as [Ht _]. discriminate Ht.
  - lia.
  - lia.
Defined.




(** X9 on a state whose selection dangles. *)
Lemma updateSelectedNote_noop_witness :
  let w := selectNote "gone" (run (startup [] ∅) [Add 1 1 "0.i"]) in
  updateSelectedNote (mkPatch (Some "x") None) 5 w = w.
Proof.
  intros w. apply updateSelectedNote_noop. intros n Hn.
  apply elem_of_cons in Hn as [-> | Hn]; [ discriminate | inversion Hn ].
Defined.

(** X11 on a collection of one note. *)
Lemma add_then_delete_restores_notes_witness :
  let w := run (startup [] ∅) [Add 1 1 "0.i"] in
  let w2 := handleDelete (λ _, true) (handleAddNote 2 2 "0.9" w) in
  notes (state w2) = notes (state w)
  ∧ selectedId (state w2) = Some "1-i".
Proof.
  intros w w2.
  destruct (add_then_delete_restores_notes (λ _, true) 2 2 "0.9" w eq_refl)
    as (Hnotes & Hsel & _).
  split; [ exact Hnotes | exact Hsel ].
Defined.

(** X13 on a collection of two notes: the newer one is deleted. *)
Lemma shownNote_after_add_and_delete_witness :
  let w := run (startup [] ∅) [Add 1 1 "0.i"; Add 2 2 "0.9"] in
  shownNote (state (handleDelete (λ _, true) w))
  = Some (createNote None 1 1 "0.i").
Proof.
  intros w.
  destruct (shownNote_after_add_and_delete (λ _, true) 3 3 "0.r" w O
              (createNote None 2 2 "0.9") eq_refl eq_refl eq_refl)
    as [_ Hdel].
  exact Hdel.
Defined.

(** X14 on an edit: the edited note keeps its id and its creation time. *)
Lemma step_keeps_id_and_createdAt_witness :
  let w := run (startup [] ∅) [Add 1 1 "0.i"] in
  let n' := mkNote "1-i" "x" EmptyString 1 7 in
  (∃ n, n ∈ notes (state w) ∧ id n = id n' ∧ createdAt n = createdAt n')
  ∨ (∃ now idTime r,
       Update (mkPatch (Some "x") None) 7 = Add now idTime r
       ∧ n' = createNote None now idTime r).
Proof.
  intros w n'.
  apply (step_keeps_id_and_createdAt w (Update (mkPatch (Some "x") None) 7) n').
  left.
Defined.

(** X15 on the queries "ta" and " TAX ". *)
Lemma longer_query_narrows_witness :
  let st := {| notes := [mkNote "1" "Groceries" "potatoes" 1 1;
                         mkNote "2" "Taxes" "april" 2 2];
               selectedId := None; query := EmptyString;
               isEditingTitle := false |} in
  getFilteredNotes (setQuery st " TAX ")
    `sublist_of` getFilteredNotes (setQuery st "ta").
Proof.
  intros st. apply longer_query_narrows.
  exists EmptyString, "x". reflexivity.
Defined.

(** X16 on a storage whose selected id belongs to no note. *)
Lemma startup_keeps_stored_selection_witness :
  let ls := <[SELECTED_KEY := "gone"]> ∅ in
  let loaded := [mkNote "a" "t" "c" 1 1] in
  selectedId (state (startup loaded ls)) = Some "gone"
  ∧ localStorage (startup loaded ls) = ls
  ∧ shownNote (state (startup loaded ls)) = None.
Proof.
  intros ls loaded.
  destruct (startup_keeps_stored_selection loaded ls "gone" eq_refl eq_refl)
    as [Hstart Hshown].
  rewrite Hstart. split; [ reflexivity | ]. split; [ reflexivity | ].
  rewrite <- Hstart. apply Hshown. intros n Hn.
  apply elem_of_cons in Hn as [-> | Hn]; [ discriminate | inversion Hn ].
Defined.

(** X17 on a collection of one older note and an empty query. *)
Lemma added_note_is_first_in_list_witness :
  let w := startup [mkNote "a" "t" "c" 1 5] ∅ in
  head (getFilteredNotes (state (handleAddNote 9 9 "0.i" w)))
  = Some (createNote None 9 9 "0.i").
Proof.
  intros w.
  destruct (added_note_is_first_in_list 9 9 "0.i" w) as [Hhead _].
  - constructor; [ cbn; lia | constructor ].
  - reflexivity.
  - exact Hhead.
Defined.

(** X18 on a collection of two notes with distinct ids. *)
Lemma handleDelete_removes_the_id_witness :
  let w := run (startup [] ∅) [Add 1 1 "0.i"; Add 2 2 "0.9"] in
  "2-9" ∉ id <$> notes (state (handleDelete (λ _, true) w)).
Proof.
  intros w.
  destruct (handleDelete_removes_the_id (λ _, true) w O
              (createNote None 2 2 "0.9")) as [Hgone _];
    try reflexivity.
  - apply (bool_decide_unpack _). reflexivity.
  - exact Hgone.
Defined.

(** X19 on a collection of two notes: the older one is clicked. *)
Lemma selectNote_shows_the_note_witness :
  let w := run (startup [] ∅) [Add 1 1 "0.i"; Add 2 2 "0.9"] in
  shownNote (state (selectNote "1-i" w)) = Some (createNote None 1 1 "0.i").
Proof.
  intros w.
  destruct (selectNote_shows_the_note w (createNote None 1 1 "0.i"))
    as [Hshown _].
  - apply (bool_decide_unpack _). reflexivity.
  - right. left.
  - exact Hshown.
Defined.
